(** * A bounded blocking queue on two counting semaphores and a mutex

    Shallow embedding of [repro.cpp]: the [concurrent_bounded_queue]
    template, the [thread_group] helper and the stress driver [main].

    Threads are interleaved at the granularity of one shared-memory
    operation: a semaphore operation, a mutex operation, an access to
    [items] under the mutex, an atomic load, store or increment.  Every
    function of the source becomes a small-step function over program
    points that follow its statements one at a time; a scheduler choice
    picks the thread that moves next and whether a timed wait gives up. *)

From Stdlib Require Import ZArith Lia.
From stdpp Require Import base list list_numbers.

Open Scope nat_scope.

(** ** Outcome of one atomic step of a thread *)

Inductive outcome (A : Type) : Type :=
  | Next (a : A)      (* the step is taken *)
  | Blocked           (* the thread cannot move in this state *)
  | Fatal.            (* a failed [assert]: the process aborts *)
Arguments Next {A} a.
Arguments Blocked {A}.
Arguments Fatal {A}.

(** ** Counting semaphore *)

(** Modelled from the spec: [std::counting_semaphore] comes from this
    library's [<semaphore>] header, which is not among the sources.  The
    spec describes it as a counting synchronization primitive whose
    acquire takes one unit and blocks while the count is zero, whose
    release adds one unit, and whose timed acquire fails, leaving the
    count alone, when the timeout elapses with no unit available. *)
Definition semaphore : Type := nat.

Definition sem_acquire (c : semaphore) : option semaphore :=
  match c with
  | O => None
  | S c' => Some c'
  end.

Definition sem_release (c : semaphore) : semaphore := S c.

(** [timed_out] is the scheduler's decision that [rel_time] has elapsed. *)
Definition sem_try_acquire_for (timed_out : bool) (c : semaphore)
  : option (bool * semaphore) :=
  if timed_out then Some (false, c)
  else match c with
       | O => None
       | S c' => Some (true, c')
       end.

(** ** The queue object *)

Section Queue.

Context {T : Type}.

(** [N] is the template parameter: the capacity. *)
Variable N : nat.

Record queue : Type := mkQueue {
  items : list T;               (* std::queue<T> items *)
  items_mtx : bool;             (* std::mutex items_mtx, true = locked *)
  items_produced : semaphore;   (* counting_semaphore<N> { 0 } *)
  remaining_space : semaphore   (* counting_semaphore<N> { N } *)
}.

Definition queue_init : queue :=
  {| items := []; items_mtx := false; items_produced := 0; remaining_space := N |}.

Definition set_items (q : queue) (v : list T) : queue :=
  mkQueue v (items_mtx q) (items_produced q) (remaining_space q).
Definition set_items_mtx (q : queue) (v : bool) : queue :=
  mkQueue (items q) v (items_produced q) (remaining_space q).
Definition set_items_produced (q : queue) (v : semaphore) : queue :=
  mkQueue (items q) (items_mtx q) v (remaining_space q).
Definition set_remaining_space (q : queue) (v : semaphore) : queue :=
  mkQueue (items q) (items_mtx q) (items_produced q) v.

(** What one atomic step does, as seen from outside. *)
Inductive event : Type :=
  | EvAcquireSpace                    (* remaining_space.acquire() *)
  | EvLock                            (* scoped_lock constructor *)
  | EvEmplace (x : T)                 (* items.emplace(x) *)
  | EvUnlock                          (* scoped_lock destructor *)
  | EvReleaseProduced                 (* items_produced.release() *)
  | EvTryAcquireProduced (ok : bool)  (* items_produced.try_acquire_for *)
  | EvSleep                           (* sleep_for(500ns) *)
  | EvAssertNonEmpty                  (* assert(!items.empty()) passed *)
  | EvFront (x : T)                   (* tmp = std::move(items.front()) *)
  | EvPop (x : T)                     (* items.pop() removed x *)
  | EvReleaseSpace.                   (* remaining_space.release() *)

(** *** [enqueue] (lines 44-53) *)

Inductive enq_pc : Type :=
  | E_acquire     (* before  remaining_space.acquire() *)
  | E_lock        (* before  std::scoped_lock l(items_mtx) *)
  | E_emplace     (* before  items.emplace(...) *)
  | E_unlock      (* before  the closing brace of the locked block *)
  | E_release     (* before  items_produced.release() *)
  | E_ret.        (* returned *)

Definition enqueue_step (x : T) (q : queue) (pc : enq_pc)
  : outcome (event * queue * enq_pc) :=
  match pc with
  | E_acquire =>
      match sem_acquire (remaining_space q) with
      | Some c => Next (EvAcquireSpace, set_remaining_space q c, E_lock)
      | None => Blocked
      end
  | E_lock =>
      if items_mtx q then Blocked
      else Next (EvLock, set_items_mtx q true, E_emplace)
  | E_emplace => Next (EvEmplace x, set_items q (items q ++ [x]), E_unlock)
  | E_unlock => Next (EvUnlock, set_items_mtx q false, E_release)
  | E_release =>
      Next (EvReleaseProduced,
            set_items_produced q (sem_release (items_produced q)), E_ret)
  | E_ret => Blocked
  end.

(** *** [try_dequeue_for] (lines 56-76) *)

Inductive deq_pc : Type :=
  | D_try                   (* before  items_produced.try_acquire_for *)
  | D_sleep                 (* before  sleep_for *)
  | D_lock                  (* before  std::scoped_lock l(items_mtx) *)
  | D_assert                (* before  assert(!items.empty()) *)
  | D_front                 (* before  tmp = std::move(items.front()) *)
  | D_pop (tmp : T)         (* before  items.pop() *)
  | D_unlock (tmp : T)      (* before  the closing brace of the locked block *)
  | D_release (tmp : T)     (* before  remaining_space.release() *)
  | D_ret (r : option T).   (* returned [r] *)

(** [front()] and [pop()] of an empty [std::queue] have no defined
    behaviour; the model stops there as it does at the failed assertion. *)
Definition try_dequeue_for_step (timed_out : bool) (q : queue) (pc : deq_pc)
  : outcome (event * queue * deq_pc) :=
  match pc with
  | D_try =>
      match sem_try_acquire_for timed_out (items_produced q) with
      | Some (true, c) =>
          Next (EvTryAcquireProduced true, set_items_produced q c, D_sleep)
      | Some (false, _) => Next (EvTryAcquireProduced false, q, D_ret None)
      | None => Blocked
      end
  | D_sleep => Next (EvSleep, q, D_lock)
  | D_lock =>
      if items_mtx q then Blocked
      else Next (EvLock, set_items_mtx q true, D_assert)
  | D_assert =>
      match items q with
      | [] => Fatal
      | _ :: _ => Next (EvAssertNonEmpty, q, D_front)
      end
  | D_front =>
      match items q with
      | [] => Fatal
      | x :: _ => Next (EvFront x, q, D_pop x)
      end
  | D_pop tmp =>
      match items q with
      | [] => Fatal
      | x :: rest => Next (EvPop x, set_items q rest, D_unlock tmp)
      end
  | D_unlock tmp => Next (EvUnlock, set_items_mtx q false, D_release tmp)
  | D_release tmp =>
      Next (EvReleaseSpace,
            set_remaining_space q (sem_release (remaining_space q)),
            D_ret (Some tmp))
  | D_ret _ => Blocked
  end.

End Queue.

Arguments queue : clear implicits.
Arguments event : clear implicits.
Arguments deq_pc : clear implicits.

(** The two member functions run on their own, with no other thread moving
    in between.  [enqueue] is [Blocked] when it would wait for ever;
    [try_dequeue_for] is given the scheduler's decision on the timeout. *)
Fixpoint enqueue_from {T : Type} (fuel : nat) (x : T) (q : queue T) (pc : enq_pc)
  : outcome (queue T) :=
  match pc, fuel with
  | E_ret, _ => Next q
  | _, O => Blocked
  | _, S fuel' =>
      match enqueue_step x q pc with
      | Next (_, q', pc') => enqueue_from fuel' x q' pc'
      | Blocked => Blocked
      | Fatal => Fatal
      end
  end.

Definition enqueue {T : Type} (x : T) (q : queue T) : outcome (queue T) :=
  enqueue_from 5 x q E_acquire.

Fixpoint try_dequeue_for_from {T : Type} (fuel : nat) (timed_out : bool)
    (q : queue T) (pc : deq_pc T) : outcome (option T * queue T) :=
  match pc, fuel with
  | D_ret r, _ => Next (r, q)
  | _, O => Blocked
  | _, S fuel' =>
      match try_dequeue_for_step timed_out q pc with
      | Next (_, q', pc') => try_dequeue_for_from fuel' timed_out q' pc'
      | Blocked => Blocked
      | Fatal => Fatal
      end
  end.

Definition try_dequeue_for {T : Type} (timed_out : bool) (q : queue T)
  : outcome (option T * queue T) :=
  try_dequeue_for_from 8 timed_out q D_try.

(** ** Arbitrary clients of one queue

    Any number of threads, each calling [enqueue] and [try_dequeue_for]
    in any order with any arguments. *)

Section Clients.

Context {T : Type}.
Variable N : nat.

Inductive client_pc : Type :=
  | Idle
  | InEnqueue (x : T) (pc : enq_pc)
  | InDequeue (pc : deq_pc T).

Inductive action : Type :=
  | ACallEnqueue (x : T)
  | ACallDequeue
  | AStep (timed_out : bool)
  | AReturn.

Inductive cevent : Type :=
  | CCallEnqueue (x : T)
  | CCallDequeue
  | CEv (e : event T)
  | CRetEnqueue (x : T)
  | CRetDequeue (r : option T)
  | CAbort.

Definition client_step (a : action) (q : queue T) (pc : client_pc)
  : outcome (cevent * queue T * client_pc) :=
  match pc, a with
  | Idle, ACallEnqueue x => Next (CCallEnqueue x, q, InEnqueue x E_acquire)
  | Idle, ACallDequeue => Next (CCallDequeue, q, InDequeue D_try)
  | InEnqueue x E_ret, AReturn => Next (CRetEnqueue x, q, Idle)
  | InDequeue (D_ret r), AReturn => Next (CRetDequeue r, q, Idle)
  | InEnqueue x pc, AStep _ =>
      match enqueue_step x q pc with
      | Next (e, q', pc') => Next (CEv e, q', InEnqueue x pc')
      | Blocked => Blocked
      | Fatal => Fatal
      end
  | InDequeue pc, AStep timed_out =>
      match try_dequeue_for_step timed_out q pc with
      | Next (e, q', pc') => Next (CEv e, q', InDequeue pc')
      | Blocked => Blocked
      | Fatal => Fatal
      end
  | _, _ => Blocked
  end.

Record cstate : Type := mkC {
  c_queue : queue T;
  c_threads : list client_pc;
  c_aborted : bool
}.

Definition cinit (n : nat) : cstate :=
  {| c_queue := queue_init N; c_threads := replicate n Idle; c_aborted := false |}.

(** Thread [t] performs action [a]. *)
Definition cstep (t : nat) (a : action) (s : cstate)
  : option ((nat * cevent) * cstate) :=
  if c_aborted s then None
  else match c_threads s !! t with
       | None => None
       | Some pc =>
           match client_step a (c_queue s) pc with
           | Next (e, q', pc') =>
               Some ((t, e), mkC q' (<[t := pc']> (c_threads s)) false)
           | Blocked => None
           | Fatal => Some ((t, CAbort), mkC (c_queue s) (c_threads s) true)
           end
       end.

Fixpoint crun (sched : list (nat * action)) (s : cstate)
  : option (list (nat * cevent) * cstate) :=
  match sched with
  | [] => Some ([], s)
  | (t, a) :: sched' =>
      match cstep t a s with
      | None => None
      | Some (e, s') =>
          match crun sched' s' with
          | None => None
          | Some (tr, s'') => Some (e :: tr, s'')
          end
      end
  end.

(** Executions from the initial state with [n] threads, with their trace. *)
Inductive cexec (n : nat) : list (nat * cevent) -> cstate -> Prop :=
  | cexec_init : cexec n [] (cinit n)
  | cexec_step tr s t a e s' :
      cexec n tr s -> cstep t a s = Some (e, s') -> cexec n (tr ++ [e]) s'.

(** The items inserted and the items removed, in the order of the trace. *)
Fixpoint pushes (tr : list (nat * cevent)) : list T :=
  match tr with
  | [] => []
  | (_, CEv (EvEmplace x)) :: tr' => x :: pushes tr'
  | _ :: tr' => pushes tr'
  end.

Fixpoint pops (tr : list (nat * cevent)) : list T :=
  match tr with
  | [] => []
  | (_, CEv (EvPop x)) :: tr' => x :: pops tr'
  | _ :: tr' => pops tr'
  end.

End Clients.

(** ** [thread_group] (lines 11-30) *)

Section ThreadGroup.

(** [A] is the state of the running callable. *)
Context {A : Type}.

(** One [std::thread] of [members]. *)
Inductive thread : Type :=
  | Running (pc : A)   (* the callable has not returned yet *)
  | Finished           (* the callable returned; the thread is joinable *)
  | Joined.            (* join() returned *)

(** The constructor's loop at index [i]: starts one more thread running
    [f], or leaves the loop. *)
Definition thread_group_ctor_step (count : nat) (f : A) (i : nat)
    (members : list thread) : list thread * option nat :=
  if i <? count then (members ++ [Running f], Some (S i))
  else (members, None).

(** [t.join()] waits for the callable to return; on a thread that is not
    joinable it throws. *)
Definition thread_join (t : thread) : outcome thread :=
  match t with
  | Running _ => Blocked
  | Finished => Next Joined
  | Joined => Fatal
  end.

(** The destructor's loop at index [k]. *)
Definition thread_group_dtor_step (k : nat) (members : list thread)
  : outcome (list thread * option nat) :=
  match members !! k with
  | Some t =>
      match thread_join t with
      | Next t' => Next (<[k := t']> members, Some (S k))
      | Blocked => Blocked
      | Fatal => Fatal
      end
  | None => Next (members, None)
  end.

End ThreadGroup.

Arguments thread : clear implicits.

(** What the constructor of [thread_group] depends on besides its
    arguments: the largest size a [std::vector<std::thread>] may have,
    whether the allocation for [n] threads succeeds, and whether the
    [i]-th [std::thread] can be started. *)
Record ctor_env : Type := mkCtorEnv {
  vector_max_size : nat;
  alloc_ok : nat -> bool;
  spawn_ok : nat -> bool
}.

Inductive ctor_exn : Type :=
  | LengthError    (* std::length_error, from members.reserve(count) *)
  | BadAlloc       (* std::bad_alloc, from members.reserve(count) *)
  | SystemError.   (* std::system_error, from std::thread(f) *)

(** How the constructor ends. *)
Inductive ctor_result (A : Type) : Type :=
  | Constructed (members : list (thread A))
  | Throws (e : ctor_exn)   (* the exception leaves the constructor *)
  | Terminates.             (* std::terminate: the exception destroys
                               [members] while it holds joinable threads *)
Arguments Constructed {A} members.
Arguments Throws {A} e.
Arguments Terminates {A}.

(** [members.reserve(count)] (line 25). *)
Definition vector_reserve (env : ctor_env) (count : nat) : option ctor_exn :=
  if vector_max_size env <? count then Some LengthError
  else if (0 <? count) && negb (alloc_ok env count) then Some BadAlloc
  else None.

(** The constructor's loop run from index [i] (lines 26-28). *)
Fixpoint thread_group_ctor_from {A : Type} (env : ctor_env) (fuel count : nat)
    (f : A) (i : nat) (members : list (thread A)) : ctor_result A :=
  match fuel with
  | O => Constructed members
  | S fuel' =>
      match thread_group_ctor_step count f i members with
      | (m, Some i') =>
          if spawn_ok env i
          then thread_group_ctor_from env fuel' count f i' m
          else match members with
               | [] => Throws SystemError
               | _ :: _ => Terminates
               end
      | (m, None) => Constructed m
      end
  end.

(** [thread_group(count, f)]: the loop is left at its [count + 1]-th test. *)
Definition thread_group_ctor {A : Type} (env : ctor_env) (count : nat) (f : A)
  : ctor_result A :=
  match vector_reserve env count with
  | Some e => Throws e
  | None => thread_group_ctor_from env (S count) count f 0 []
  end.

(** The destructor's loop run from index [k] while no thread moves
    (lines 20-21); it is left at its [length members + 1]-th test. *)
Fixpoint thread_group_dtor_from {A : Type} (fuel k : nat)
    (members : list (thread A)) : outcome (list (thread A)) :=
  match fuel with
  | O => Blocked
  | S fuel' =>
      match thread_group_dtor_step k members with
      | Next (m, Some k') => thread_group_dtor_from fuel' k' m
      | Next (m, None) => Next m
      | Blocked => Blocked
      | Fatal => Fatal
      end
  end.

Definition thread_group_dtor {A : Type} (members : list (thread A))
  : outcome (list (thread A)) :=
  thread_group_dtor_from (S (length members)) 0 members.

(** ** Latch *)

(** Modelled from the spec: [std::latch] comes from this library's
    [<latch>] header, which is not among the sources.  The spec describes
    a one-shot rendezvous for a fixed number of parties that releases them
    all once the last has arrived: a counter that each arrival decrements
    and that lets waiters through when it is zero. *)
Definition latch : Type := Z.
Definition latch_count_down (c : latch) : latch := (c - 1)%Z.
Definition latch_try_wait (c : latch) : bool := (c =? 0)%Z.

(** ** Fixed-width integers of [main] *)

Definition wrap_int (z : Z) : Z := ((z + 2 ^ 31) mod 2 ^ 32 - 2 ^ 31)%Z.
Definition wrap_size_t (z : Z) : Z := (z mod 2 ^ 64)%Z.

(** ** The stress driver [main] (lines 79-119) *)

(** The two closures that [main] puts in the queue. *)
Inductive task : Type :=
  | Work       (* [&] { ++count; } *)
  | Barrier.   (* [&] { l.arrive_and_wait(); } *)

Record config : Type := mkConfig {
  num_runs : Z;
  num_enqueues_per_run : Z;
  num_threads : nat;
  capacity : nat     (* the second template argument of [tasks] *)
}.

Definition repro_config : config :=
  {| num_runs := 20000; num_enqueues_per_run := 256;
     num_threads := 8; capacity := 32 |}.

(** Program points of the worker lambda (lines 95-104). *)
Inductive worker_pc : Type :=
  | W_loop                        (* line 97: the loop test *)
  | W_dequeue (pc : deq_pc task)  (* line 98: inside try_dequeue_for *)
  | W_call (f : task)             (* lines 99-101: before the call of f *)
  | W_wait.                       (* inside l.arrive_and_wait(), counted down *)

(** Program points of [main]. *)
Inductive main_pc : Type :=
  | M_for_test                          (* line 88: runs < num_runs *)
  | M_stop_init                         (* line 90 *)
  | M_tg_ctor (i : nat)                 (* line 94, constructor loop *)
  | M_work (i : Z)                      (* line 107: i < num_enqueues_per_run *)
  | M_work_enqueue (i : Z) (pc : enq_pc)    (* line 108 *)
  | M_latch_init                        (* line 110 *)
  | M_barrier (i : nat)                 (* line 111: i < num_threads *)
  | M_barrier_enqueue (i : nat) (pc : enq_pc)  (* line 112 *)
  | M_arrive                            (* line 113, counting down *)
  | M_wait                              (* line 113, waiting *)
  | M_stop_store                        (* line 115 *)
  | M_latch_dtor                        (* line 116: l is destroyed *)
  | M_tg_dtor (k : nat)                 (* line 116: tg is destroyed, join loop *)
  | M_members_dtor                      (* line 116: tg.members is destroyed *)
  | M_stop_dtor                         (* line 116: stop_requested is destroyed; ++runs *)
  | M_final_assert                      (* line 118 *)
  | M_exit.

Record hstate : Type := mkH {
  tasks : queue task;                  (* line 83 *)
  count : Z;                           (* std::atomic<int> count *)
  runs : Z;
  stop_requested : bool;
  l_counter : latch;                   (* std::latch l; its lifetime is
                                          read off [mpc], see [l_alive] *)
  members : list (thread worker_pc);   (* tg.members *)
  mpc : main_pc;
  aborted : bool
}.

Definition set_mpc (s : hstate) (pc : main_pc) : hstate :=
  mkH (tasks s) (count s) (runs s) (stop_requested s) (l_counter s)
      (members s) pc (aborted s).
Definition set_tasks (s : hstate) (q : queue task) (pc : main_pc) : hstate :=
  mkH q (count s) (runs s) (stop_requested s) (l_counter s)
      (members s) pc (aborted s).
Definition set_runs (s : hstate) (r : Z) (pc : main_pc) : hstate :=
  mkH (tasks s) (count s) r (stop_requested s) (l_counter s)
      (members s) pc (aborted s).
Definition set_stop_requested (s : hstate) (b : bool) (pc : main_pc) : hstate :=
  mkH (tasks s) (count s) (runs s) b (l_counter s) (members s) pc (aborted s).
Definition set_l_counter (s : hstate) (c : latch) (pc : main_pc) : hstate :=
  mkH (tasks s) (count s) (runs s) (stop_requested s) c
      (members s) pc (aborted s).
Definition set_members (s : hstate) (m : list (thread worker_pc)) (pc : main_pc)
  : hstate :=
  mkH (tasks s) (count s) (runs s) (stop_requested s) (l_counter s)
      m pc (aborted s).
Definition set_aborted (s : hstate) : hstate :=
  mkH (tasks s) (count s) (runs s) (stop_requested s) (l_counter s)
      (members s) (mpc s) true.

(** The locals of the loop body live from their declaration to the closing
    brace of line 116, where they are destroyed in reverse order: [l], then
    [tg], then [stop_requested]. *)
Definition stop_alive (pc : main_pc) : bool :=
  match pc with
  | M_for_test | M_stop_init | M_final_assert | M_exit => false
  | _ => true
  end.

Definition l_alive (pc : main_pc) : bool :=
  match pc with
  | M_barrier _ | M_barrier_enqueue _ _ | M_arrive | M_wait | M_stop_store
  | M_latch_dtor => true
  | _ => false
  end.

Section Harness.

Variable cfg : config.

Definition hinit : hstate :=
  {| tasks := queue_init (capacity cfg); count := 0; runs := 0;
     stop_requested := false; l_counter := 0%Z; members := [];
     mpc := M_for_test; aborted := false |}.

(** One call of [tasks.enqueue(x)] by [main]; [ret] is where [main]
    continues after the call and [at_pc] where it stands inside it. *)
Definition main_enqueue (s : hstate) (x : task) (pc : enq_pc)
    (at_pc : enq_pc -> main_pc) (ret : main_pc) : outcome hstate :=
  match pc with
  | E_ret => Next (set_mpc s ret)
  | _ =>
      match enqueue_step x (tasks s) pc with
      | Next (_, q', pc') => Next (set_tasks s q' (at_pc pc'))
      | Blocked => Blocked
      | Fatal => Fatal
      end
  end.

Definition main_step (s : hstate) : outcome hstate :=
  match mpc s with
  | M_for_test =>
      if (runs s <? num_runs cfg)%Z then Next (set_mpc s M_stop_init)
      else Next (set_mpc s M_final_assert)
  | M_stop_init => Next (set_stop_requested s false (M_tg_ctor 0))
  | M_tg_ctor i =>
      match thread_group_ctor_step (num_threads cfg) W_loop i (members s) with
      | (m, Some i') => Next (set_members s m (M_tg_ctor i'))
      | (m, None) => Next (set_members s m (M_work 0))
      end
  | M_work i =>
      if (i <? num_enqueues_per_run cfg)%Z
      then Next (set_mpc s (M_work_enqueue i E_acquire))
      else Next (set_mpc s M_latch_init)
  | M_work_enqueue i pc =>
      main_enqueue s Work pc (M_work_enqueue i) (M_work (wrap_size_t (i + 1)))
  | M_latch_init =>
      Next (set_l_counter s (Z.of_nat (num_threads cfg) + 1)%Z (M_barrier 0))
  | M_barrier i =>
      if i <? num_threads cfg
      then Next (set_mpc s (M_barrier_enqueue i E_acquire))
      else Next (set_mpc s M_arrive)
  | M_barrier_enqueue i pc =>
      main_enqueue s Barrier pc (M_barrier_enqueue i) (M_barrier (S i))
  | M_arrive => Next (set_l_counter s (latch_count_down (l_counter s)) M_wait)
  | M_wait =>
      if latch_try_wait (l_counter s) then Next (set_mpc s M_stop_store)
      else Blocked
  | M_stop_store => Next (set_stop_requested s true M_latch_dtor)
  | M_latch_dtor => Next (set_mpc s (M_tg_dtor 0))
  | M_tg_dtor k =>
      match thread_group_dtor_step k (members s) with
      | Next (m, Some k') => Next (set_members s m (M_tg_dtor k'))
      | Next (m, None) => Next (set_members s m M_members_dtor)
      | Blocked => Blocked
      | Fatal => Fatal
      end
  | M_members_dtor => Next (set_members s [] M_stop_dtor)
  | M_stop_dtor => Next (set_runs s (wrap_size_t (runs s + 1)) M_for_test)
  | M_final_assert =>
      if (wrap_size_t (num_runs cfg * num_enqueues_per_run cfg)
          =? wrap_size_t (count s))%Z
      then Next (set_mpc s M_exit)
      else Fatal
  | M_exit => Blocked
  end.

(** One step of the worker lambda: the new queue, counter and latch, and
    the new state of the thread. *)
Definition worker_step (timed_out : bool) (s : hstate) (pc : worker_pc)
  : outcome (queue task * Z * latch * thread worker_pc) :=
  match pc with
  | W_loop =>
      if stop_requested s
      then Next (tasks s, count s, l_counter s, Finished)
      else Next (tasks s, count s, l_counter s, Running (W_dequeue D_try))
  | W_dequeue (D_ret None) =>
      Next (tasks s, count s, l_counter s, Running W_loop)
  | W_dequeue (D_ret (Some f)) =>
      Next (tasks s, count s, l_counter s, Running (W_call f))
  | W_dequeue pc =>
      match try_dequeue_for_step timed_out (tasks s) pc with
      | Next (_, q', pc') =>
          Next (q', count s, l_counter s, Running (W_dequeue pc'))
      | Blocked => Blocked
      | Fatal => Fatal
      end
  | W_call Work =>
      Next (tasks s, wrap_int (count s + 1), l_counter s, Running W_loop)
  | W_call Barrier =>
      Next (tasks s, count s, latch_count_down (l_counter s), Running W_wait)
  | W_wait =>
      if latch_try_wait (l_counter s)
      then Next (tasks s, count s, l_counter s, Running W_loop)
      else Blocked
  end.

(** The scheduler picks [main] or worker [j]. *)
Inductive choice : Type :=
  | Main
  | Worker (j : nat) (timed_out : bool).

Definition hstep (c : choice) (s : hstate) : option hstate :=
  if aborted s then None
  else match c with
       | Main =>
           match main_step s with
           | Next s' => Some s'
           | Blocked => None
           | Fatal => Some (set_aborted s)
           end
       | Worker j timed_out =>
           match members s !! j with
           | Some (Running pc) =>
               match worker_step timed_out s pc with
               | Next (q, c, l, th) =>
                   Some (mkH q c (runs s) (stop_requested s) l
                             (<[j := th]> (members s)) (mpc s) false)
               | Blocked => None
               | Fatal => Some (set_aborted s)
               end
           | _ => None
           end
       end.

Fixpoint hrun (sched : list choice) (s : hstate) : option hstate :=
  match sched with
  | [] => Some s
  | c :: sched' =>
      match hstep c s with
      | Some s' => hrun sched' s'
      | None => None
      end
  end.

(** States reachable from [s0]. *)
Inductive hreach (s0 : hstate) : hstate -> Prop :=
  | hreach_refl : hreach s0 s0
  | hreach_step s c s' : hreach s0 s -> hstep c s = Some s' -> hreach s0 s'.

Definition hreachable : hstate -> Prop := hreach hinit.

(** A scheduler for test runs: [main] moves whenever it can, otherwise the
    first worker that can, giving up a timed wait only when it must. *)
Definition candidates : list choice :=
  Main :: flat_map (fun j => [Worker j false; Worker j true])
                   (seq 0 (num_threads cfg)).

Fixpoint first_enabled (cs : list choice) (s : hstate) : option hstate :=
  match cs with
  | [] => None
  | c :: cs' =>
      match hstep c s with
      | Some s' => Some s'
      | None => first_enabled cs' s
      end
  end.

Fixpoint hrun_greedy (fuel : nat) (s : hstate) : hstate :=
  match fuel with
  | O => s
  | S fuel' =>
      match first_enabled candidates s with
      | Some s' => hrun_greedy fuel' s'
      | None => s
      end
  end.

End Harness.

(** * Vocabulary of the statements

    Counters over the threads by program point, the invariants that the
    proofs maintain, the traces of single calls, and the concrete
    executions at which the theorems are tried. *)

(** ** The queue under arbitrary clients *)

Section ClientVocabulary.

Context {T : Type}.
Variable N : nat.

Local Abbreviation client_pc := (@client_pc T).
Local Abbreviation cstate := (@cstate T).
Local Abbreviation cevent := (@cevent T).

(** A consumer that took a unit of [items_produced] and has not popped. *)
Definition cw_acquired (pc : client_pc) : nat :=
  match pc with
  | InDequeue (D_sleep | D_lock | D_assert | D_front | D_pop _) => 1
  | _ => 0
  end.

(** A consumer that popped and has not given its slot back. *)
Definition cw_popped (pc : client_pc) : nat :=
  match pc with
  | InDequeue (D_unlock _ | D_release _) => 1
  | _ => 0
  end.

(** A producer that took a unit of [remaining_space] and has not pushed. *)
Definition cw_reserved (pc : client_pc) : nat :=
  match pc with
  | InEnqueue _ (E_lock | E_emplace) => 1
  | _ => 0
  end.

(** A producer that pushed and has not released [items_produced]. *)
Definition cw_pushed (pc : client_pc) : nat :=
  match pc with
  | InEnqueue _ (E_unlock | E_release) => 1
  | _ => 0
  end.

(** A thread inside a block guarded by [items_mtx]. *)
Definition cw_critical (pc : client_pc) : nat :=
  match pc with
  | InEnqueue _ (E_emplace | E_unlock) => 1
  | InDequeue (D_assert | D_front | D_pop _ | D_unlock _) => 1
  | _ => 0
  end.

Definition mtx_count (b : bool) : nat := if b then 1 else 0.

Record cinv (s : cstate) : Prop := mkCinv {
  cinv_alive : c_aborted s = false;
  cinv_produced :
    length (items (c_queue s)) =
    items_produced (c_queue s) + sum_list_with cw_pushed (c_threads s)
    + sum_list_with cw_acquired (c_threads s);
  cinv_space :
    remaining_space (c_queue s) + sum_list_with cw_reserved (c_threads s)
    + length (items (c_queue s)) + sum_list_with cw_popped (c_threads s) = N;
  cinv_mutex :
    sum_list_with cw_critical (c_threads s) = mtx_count (items_mtx (c_queue s))
}.

(** The events of one call of [enqueue], whatever the other threads do to
    the queue between two of its steps. *)
Inductive enqueue_trace (x : T) : enq_pc -> list (event T) -> enq_pc -> Prop :=
  | enqueue_trace_nil pc : enqueue_trace x pc [] pc
  | enqueue_trace_cons pc q e q' pc' es pc'' :
      enqueue_step x q pc = Next (e, q', pc') ->
      enqueue_trace x pc' es pc'' ->
      enqueue_trace x pc (e :: es) pc''.

(** The steps of one call of [try_dequeue_for], each with the queue before
    and after it, whatever the other threads do in between. *)
Inductive try_dequeue_for_trace :
    deq_pc T -> list (queue T * event T * queue T) -> deq_pc T -> Prop :=
  | dequeue_trace_nil pc : try_dequeue_for_trace pc [] pc
  | dequeue_trace_cons b pc q e q' pc' steps pc'' :
      try_dequeue_for_step b q pc = Next (e, q', pc') ->
      try_dequeue_for_trace pc' steps pc'' ->
      try_dequeue_for_trace pc ((q, e, q') :: steps) pc''.



End ClientVocabulary.

(** The item a client thread has removed from the store and not yet handed
    to its caller. *)
Definition c_holds {T : Type} (pc : @client_pc T) : list T :=
  match pc with
  | InDequeue (D_unlock tmp | D_release tmp | D_ret (Some tmp)) => [tmp]
  | _ => []
  end.

(** The items that calls of [try_dequeue_for] have returned, in the order
    of the returns. *)
Fixpoint returned {T : Type} (tr : list (nat * @cevent T)) : list T :=
  match tr with
  | [] => []
  | (_, CRetDequeue (Some x)) :: tr' => x :: returned tr'
  | _ :: tr' => returned tr'
  end.

(** One thread using the queue with no other thread around: [enqueue] of
    each item of [xs] in turn. *)
Fixpoint enqueue_all {T : Type} (xs : list T) (q : queue T) : outcome (queue T) :=
  match xs with
  | [] => Next q
  | x :: xs' =>
      match enqueue x q with
      | Next q' => enqueue_all xs' q'
      | Blocked => Blocked
      | Fatal => Fatal
      end
  end.

(** [n] calls of [try_dequeue_for] that do not time out, with the items
    they return in order; a call that returns nothing ends the run. *)
Fixpoint dequeue_n {T : Type} (n : nat) (q : queue T)
  : outcome (list T * queue T) :=
  match n with
  | O => Next ([], q)
  | S n' =>
      match try_dequeue_for false q with
      | Next (Some x, q') =>
          match dequeue_n n' q' with
          | Next (xs, q'') => Next (x :: xs, q'')
          | Blocked => Blocked
          | Fatal => Fatal
          end
      | Next (None, q') => Next ([], q')
      | Blocked => Blocked
      | Fatal => Fatal
      end
  end.

(** ** The stress driver *)

Definition tw_work (f : task) : nat := match f with Work => 1 | Barrier => 0 end.
Definition tw_barrier (f : task) : nat := match f with Work => 0 | Barrier => 1 end.

(** All the work tasks of the store come before all its barrier tasks. *)
Fixpoint barriers_last (q : list task) : Prop :=
  match q with
  | [] => True
  | Work :: q' => barriers_last q'
  | Barrier :: q' => sum_list_with tw_work q' = 0
  end.

Definition hw_acquired (th : thread worker_pc) : nat :=
  match th with
  | Running (W_dequeue (D_sleep | D_lock | D_assert | D_front | D_pop _)) => 1
  | _ => 0
  end.

Definition hw_popped (th : thread worker_pc) : nat :=
  match th with
  | Running (W_dequeue (D_unlock _ | D_release _)) => 1
  | _ => 0
  end.

Definition hw_critical (th : thread worker_pc) : nat :=
  match th with
  | Running (W_dequeue (D_assert | D_front | D_pop _ | D_unlock _)) => 1
  | _ => 0
  end.

(** A worker that holds a popped task of kind [k] and has not run it. *)
Definition hw_holds (k : task -> nat) (th : thread worker_pc) : nat :=
  match th with
  | Running (W_dequeue (D_unlock f | D_release f | D_ret (Some f))) => k f
  | Running (W_call f) => k f
  | _ => 0
  end.

Definition hw_wait (th : thread worker_pc) : nat :=
  match th with
  | Running W_wait => 1
  | _ => 0
  end.

Definition e_reserved (pc : enq_pc) : nat :=
  match pc with E_lock | E_emplace => 1 | _ => 0 end.
Definition e_pushed (pc : enq_pc) : nat :=
  match pc with E_unlock | E_release => 1 | _ => 0 end.
Definition e_critical (pc : enq_pc) : nat :=
  match pc with E_emplace | E_unlock => 1 | _ => 0 end.
Definition e_done (pc : enq_pc) : nat :=
  match pc with E_unlock | E_release | E_ret => 1 | _ => 0 end.

Definition m_enq (w : enq_pc -> nat) (pc : main_pc) : nat :=
  match pc with
  | M_work_enqueue _ e | M_barrier_enqueue _ e => w e
  | _ => 0
  end.

Inductive phase : Type := PhIdle | PhCtor | PhWork | PhBarrier | PhDrained.

Definition phase_of (pc : main_pc) : phase :=
  match pc with
  | M_for_test | M_stop_init | M_stop_dtor | M_final_assert | M_exit => PhIdle
  | M_tg_ctor _ => PhCtor
  | M_work _ | M_work_enqueue _ _ | M_latch_init => PhWork
  | M_barrier _ | M_barrier_enqueue _ _ | M_arrive | M_wait => PhBarrier
  | M_stop_store | M_latch_dtor | M_tg_dtor _ | M_members_dtor => PhDrained
  end.

(** The head of the store is [tmp]. *)
Definition front_is (q : list task) (tmp : task) : Prop := head q = Some tmp.
Global Arguments front_is : simpl never.

Section HarnessVocabulary.

Variable cfg : config.

Local Abbreviation R := (num_runs cfg).
Local Abbreviation E := (num_enqueues_per_run cfg).
Local Abbreviation T := (num_threads cfg).

Record cfg_ok : Prop := mkCfgOk {
  ok_runs : (0 <= R < 2 ^ 64)%Z;
  ok_enqueues : (0 <= E < 2 ^ 64)%Z;
  ok_total : (R * E < 2 ^ 31)%Z;
  ok_threads : 1 <= T
}.

Definition m_threads (pc : main_pc) : nat :=
  match pc with
  | M_for_test | M_stop_init | M_stop_dtor | M_final_assert | M_exit => 0
  | M_tg_ctor i => i
  | _ => T
  end.

Definition m_joined (pc : main_pc) : nat :=
  match pc with
  | M_tg_dtor k => k
  | M_members_dtor => T
  | _ => 0
  end.

Definition pushed_work (pc : main_pc) : Z :=
  match pc with
  | M_for_test | M_stop_init | M_tg_ctor _ | M_final_assert | M_exit => 0
  | M_work i => i
  | M_work_enqueue i e => i + Z.of_nat (e_done e)
  | _ => E
  end.

Definition pushed_barrier (pc : main_pc) : nat :=
  match pc with
  | M_barrier i => i
  | M_barrier_enqueue i e => i + e_done e
  | M_arrive | M_wait => T
  | _ => 0
  end.

Definition m_arrived (pc : main_pc) : nat :=
  match pc with M_wait => 1 | _ => 0 end.

(** The value of [stop_requested] during its lifetime. *)
Definition m_stop (pc : main_pc) : option bool :=
  match pc with
  | M_for_test | M_stop_init | M_final_assert | M_exit => None
  | M_latch_dtor | M_tg_dtor _ | M_members_dtor | M_stop_dtor => Some true
  | _ => Some false
  end.

Definition m_wf (pc : main_pc) : Prop :=
  match pc with
  | M_tg_ctor i | M_barrier i | M_tg_dtor i => i <= T
  | M_barrier_enqueue i _ => i < T
  | M_work i => (0 <= i <= E)%Z
  | M_work_enqueue i _ => (0 <= i < E)%Z
  | _ => True
  end.

Definition m_runs (pc : main_pc) (r : Z) : Prop :=
  match pc with
  | M_for_test => (r <= R)%Z
  | M_final_assert | M_exit => r = R
  | _ => (r < R)%Z
  end.

Definition phase_inv (s : hstate) : Prop :=
  let m := members s in
  let q := items (tasks s) in
  let l := l_counter s in
  let arrivals := (Z.of_nat T + 1 - l - Z.of_nat (m_arrived (mpc s)))%Z in
  match phase_of (mpc s) with
  | PhIdle => length q = 0
  | PhCtor =>
      length q = 0 /\ sum_list_with hw_acquired m = 0 /\
      sum_list_with (hw_holds tw_work) m = 0 /\
      sum_list_with (hw_holds tw_barrier) m = 0 /\
      sum_list_with hw_wait m = 0
  | PhWork =>
      sum_list_with tw_barrier q = 0 /\
      sum_list_with (hw_holds tw_barrier) m = 0 /\
      sum_list_with hw_wait m = 0
  | PhBarrier =>
      (0 <= l)%Z /\
      (arrivals + Z.of_nat (sum_list_with (hw_holds tw_barrier) m)
       + Z.of_nat (sum_list_with tw_barrier q)
       = Z.of_nat (pushed_barrier (mpc s)))%Z /\
      ((0 < l)%Z ->
       (l + Z.of_nat (m_arrived (mpc s)) + Z.of_nat (sum_list_with hw_wait m)
        = Z.of_nat T + 1)%Z) /\
      (0 < sum_list_with tw_work q ->
       (arrivals + Z.of_nat (sum_list_with (hw_holds tw_barrier) m) = 0)%Z) /\
      (l = 0%Z ->
       sum_list_with (hw_holds tw_work) m = 0 /\
       sum_list_with hw_acquired m = 0)
  | PhDrained =>
      l = 0%Z /\ length q = 0 /\
      sum_list_with (hw_holds tw_work) m = 0 /\
      sum_list_with (hw_holds tw_barrier) m = 0 /\
      sum_list_with hw_acquired m = 0
  end.

Record hinv (s : hstate) : Prop := mkHinv {
  hi_alive : aborted s = false;
  hi_produced :
    length (items (tasks s)) =
    items_produced (tasks s) + m_enq e_pushed (mpc s)
    + sum_list_with hw_acquired (members s);
  hi_space :
    remaining_space (tasks s) + m_enq e_reserved (mpc s)
    + length (items (tasks s)) + sum_list_with hw_popped (members s)
    = capacity cfg;
  hi_mutex :
    sum_list_with hw_critical (members s) + m_enq e_critical (mpc s)
    = mtx_count (items_mtx (tasks s));
  hi_front : forall j tmp,
    members s !! j = Some (Running (W_dequeue (D_pop tmp))) ->
    front_is (items (tasks s)) tmp;
  hi_shape : barriers_last (items (tasks s));
  hi_count_pos : (0 <= count s)%Z;
  hi_count :
    (count s + Z.of_nat (sum_list_with (hw_holds tw_work) (members s))
     + Z.of_nat (sum_list_with tw_work (items (tasks s)))
     = runs s * E + pushed_work (mpc s))%Z;
  hi_runs_pos : (0 <= runs s)%Z;
  hi_runs : m_runs (mpc s) (runs s);
  hi_threads : length (members s) = m_threads (mpc s);
  hi_wf : m_wf (mpc s);
  hi_joined : forall j, j < length (members s) ->
    (members s !! j = Some Joined <-> j < m_joined (mpc s));
  hi_stop : forall b, m_stop (mpc s) = Some b -> stop_requested s = b;
  hi_phase : phase_inv s
}.

End HarnessVocabulary.

(** What the destructor of [tg] has achieved so far. *)
Definition dtor_inv (s : hstate) : Prop :=
  match mpc s with
  | M_tg_dtor k =>
      forall j, j < k -> j < length (members s) -> members s !! j = Some Joined
  | M_members_dtor =>
      forall j, j < length (members s) -> members s !! j = Some Joined
  | _ => True
  end.

(** A scheduler's choice that does not make a timed wait give up. *)
Definition no_timeout (c : choice) : Prop :=
  match c with
  | Worker _ true => False
  | _ => True
  end.

(** A worker has returned only if [stop_requested] holds true. *)
Definition stop_inv (s : hstate) : Prop :=
  forall j th, members s !! j = Some th ->
    (exists pc, th = Running pc) \/
    (stop_requested s = true /\ stop_alive (mpc s) = true).

(** [main] has not got past the acquire of its first [enqueue] of the first
    round. *)
Definition before_first_push (pc : main_pc) : bool :=
  match pc with
  | M_for_test | M_stop_init | M_tg_ctor _ | M_latch_init => true
  | M_work i | M_work_enqueue i E_acquire => (i =? 0)%Z
  | M_barrier i | M_barrier_enqueue i E_acquire => i =? 0
  | _ => false
  end.

(** ** Concrete executions *)

Definition small_config : config :=
  {| num_runs := 1; num_enqueues_per_run := 1; num_threads := 1; capacity := 1 |}.

(** The small scenario after [fuel] steps of the test scheduler. *)
Definition small_run (fuel : nat) : hstate :=
  hrun_greedy small_config fuel (hinit small_config).

(** The small scenario with a queue that has no slot. *)
Definition zero_config : config :=
  {| num_runs := 1; num_enqueues_per_run := 1; num_threads := 1; capacity := 0 |}.

(** The configured scenario, for its complete run. *)

(** [main] at the loop test, no thread running, the queue as constructed. *)
Definition at_round_start (r c : Z) (stop : bool) : hstate :=
  mkH (queue_init 32) c r stop 0%Z [] M_for_test false.

(** [main] about to enqueue work item [i], every worker at its loop test,
    the queue as constructed. *)
Definition at_work (r i c : Z) : hstate :=
  mkH (queue_init 32) c r false 0%Z (replicate 8 (Running W_loop))
      (M_work i) false.

Definition at_round_end (r c : Z) : hstate :=
  mkH (queue_init 32) c r true 0%Z [] M_stop_dtor false.

(** [main] enqueues one work item, worker 0 dequeues and runs it. *)
Definition work_schedule : list choice :=
  replicate 6 Main ++ replicate 11 (Worker 0 false).

(** [main] enqueues the barrier tasks and arrives; each worker takes one and
    arrives; the barrier opens; the workers see the stop flag and are
    joined. *)
Definition barrier_schedule : list choice :=
  replicate 60 Main
  ++ flat_map (fun j => replicate 11 (Worker j false)) (seq 0 8)
  ++ replicate 3 Main
  ++ flat_map (fun j => replicate 2 (Worker j false)) (seq 0 8)
  ++ replicate 10 Main.

(** Executions of two or three client threads. *)

Definition trace_of (r : option (list (nat * @cevent nat) * @cstate nat))
  : list (nat * @cevent nat) :=
  match r with Some (tr, _) => tr | None => [] end.

Definition state_of (N n : nat)
    (r : option (list (nat * @cevent nat) * @cstate nat)) : @cstate nat :=
  match r with Some (_, s) => s | None => cinit N n end.

(** Thread 0 enqueues 7; thread 1 starts a dequeue and takes the lock. *)
Definition schedule_to_assert : list (nat * @action nat) :=
  (0, ACallEnqueue 7) :: replicate 5 (0, AStep false)
  ++ (1, ACallDequeue) :: replicate 3 (1, AStep false).

Definition trace_to_assert : list (nat * @cevent nat) :=
  Eval vm_compute in trace_of (crun schedule_to_assert (cinit 1 2)).
Definition state_to_assert : @cstate nat :=
  Eval vm_compute in state_of 1 2 (crun schedule_to_assert (cinit 1 2)).

(** Thread 0 is about to append 7. *)
Definition schedule_to_emplace : list (nat * @action nat) :=
  (0, ACallEnqueue 7) :: replicate 2 (0, AStep false).

Definition trace_to_emplace : list (nat * @cevent nat) :=
  Eval vm_compute in trace_of (crun schedule_to_emplace (cinit 1 2)).
Definition state_to_emplace : @cstate nat :=
  Eval vm_compute in state_of 1 2 (crun schedule_to_emplace (cinit 1 2)).

Definition state_at_try : @cstate nat :=
  mkC (queue_init 1) [InDequeue D_try] false.

(** Thread 0 enqueues 1 and returns; then thread 1 enqueues 2; then thread 0
    dequeues twice. *)
Definition schedule_two_items : list (nat * @action nat) :=
  (0, ACallEnqueue 1) :: replicate 5 (0, AStep false) ++ [(0, AReturn)]
  ++ (1, ACallEnqueue 2) :: replicate 5 (1, AStep false) ++ [(1, AReturn)]
  ++ (0, ACallDequeue) :: replicate 8 (0, AStep false) ++ [(0, AReturn)]
  ++ (0, ACallDequeue) :: replicate 8 (0, AStep false) ++ [(0, AReturn)].

Definition trace_two_items : list (nat * @cevent nat) :=
  Eval vm_compute in trace_of (crun schedule_two_items (cinit 2 2)).
Definition state_two_items : @cstate nat :=
  Eval vm_compute in state_of 2 2 (crun schedule_two_items (cinit 2 2)).


(** ** Runs of the driver with their steps *)

(** One step of a run: the state before, who moved, the state after. *)
Definition hstep_rec : Type := hstate * choice * hstate.

(** The runs of the driver from its initial state, with every step taken. *)
Inductive hexec (cfg : config) : list hstep_rec -> hstate -> Prop :=
  | hexec_init : hexec cfg [] (hinit cfg)
  | hexec_step tr s c s' :
      hexec cfg tr s -> hstep cfg c s = Some s' ->
      hexec cfg (tr ++ [(s, c, s')]) s'.

(** The tasks of kind [k] that the step appended to the store. *)
Definition ev_pushed (k : task -> nat) (st : hstep_rec) : nat :=
  let '(s, _, s') := st in
  sum_list_with k (drop (length (items (tasks s))) (items (tasks s'))).

(** The step is a worker's call of a task of kind [k] (line 101). *)
Definition ev_called (k : task -> nat) (st : hstep_rec) : nat :=
  let '(s, c, _) := st in
  match c with
  | Worker j _ =>
      match members s !! j with
      | Some (Running (W_call f)) => k f
      | _ => 0
      end
  | Main => 0
  end.

(** By how much the step counted the live latch down. *)
Definition ev_arrived (st : hstep_rec) : nat :=
  let '(s, _, s') := st in
  if l_alive (mpc s) then Z.to_nat (l_counter s - l_counter s') else 0.

(** The step took the counter of the live latch to zero. *)
Definition ev_opened (st : hstep_rec) : nat :=
  let '(s, _, s') := st in
  if l_alive (mpc s) && (0 <? l_counter s)%Z && (l_counter s' =? 0)%Z
  then 1 else 0.

(** The step set [stop_requested]. *)
Definition ev_stopped (st : hstep_rec) : nat :=
  let '(s, _, s') := st in
  if negb (stop_requested s) && stop_requested s' then 1 else 0.

(** How often an event occurs in a run. *)
Definition occurrences (w : hstep_rec -> nat) (tr : list hstep_rec) : nat :=
  sum_list_with w tr.

Section TraceVocabulary.

Variable cfg : config.

Local Abbreviation E := (num_enqueues_per_run cfg).
Local Abbreviation T := (num_threads cfg).

(** Barrier tasks enqueued in the current round. *)
Definition round_barriers (pc : main_pc) : nat :=
  match pc with
  | M_barrier i => i
  | M_barrier_enqueue i e => i + e_done e
  | M_arrive | M_wait | M_stop_store | M_latch_dtor | M_tg_dtor _
  | M_members_dtor | M_stop_dtor => T
  | _ => 0
  end.

(** [main] has counted the latch of the current round down. *)
Definition main_arrived (pc : main_pc) : Z :=
  match pc with
  | M_wait | M_stop_store | M_latch_dtor | M_tg_dtor _ | M_members_dtor
  | M_stop_dtor => 1
  | _ => 0
  end.

(** Arrivals at the latch of the current round. *)
Definition round_arrivals (s : hstate) : Z :=
  match mpc s with
  | M_tg_dtor _ | M_members_dtor | M_stop_dtor => Z.of_nat T + 1
  | pc => if l_alive pc then Z.of_nat T + 1 - l_counter s else 0
  end.

(** The latch of the current round has opened. *)
Definition round_opened (s : hstate) : Z :=
  match mpc s with
  | M_tg_dtor _ | M_members_dtor | M_stop_dtor => 1
  | pc => if l_alive pc && (l_counter s =? 0)%Z then 1 else 0
  end.

Definition round_stopped (pc : main_pc) : Z :=
  match m_stop pc with Some true => 1 | _ => 0 end.

Record tinv (tr : list hstep_rec) (s : hstate) : Prop := mkTinv {
  ti_pushed_work :
    (Z.of_nat (occurrences (ev_pushed tw_work) tr)
     = runs s * E + pushed_work cfg (mpc s))%Z;
  ti_called_work : count s = Z.of_nat (occurrences (ev_called tw_work) tr);
  ti_pushed_barrier :
    (Z.of_nat (occurrences (ev_pushed tw_barrier) tr)
     = runs s * Z.of_nat T + Z.of_nat (round_barriers (mpc s)))%Z;
  ti_called_barrier :
    (Z.of_nat (occurrences (ev_called tw_barrier) tr)
     = runs s * Z.of_nat T + (round_arrivals s - main_arrived (mpc s)))%Z;
  ti_arrived :
    (Z.of_nat (occurrences ev_arrived tr)
     = runs s * (Z.of_nat T + 1) + round_arrivals s)%Z;
  ti_opened : (Z.of_nat (occurrences ev_opened tr) = runs s + round_opened s)%Z;
  ti_stopped :
    (Z.of_nat (occurrences ev_stopped tr) = runs s + round_stopped (mpc s))%Z
}.

End TraceVocabulary.

(** The run that follows the schedule [sched], with its steps. *)
Fixpoint htrace (cfg : config) (sched : list choice) (s : hstate)
  : option (list hstep_rec * hstate) :=
  match sched with
  | [] => Some ([], s)
  | c :: sched' =>
      match hstep cfg c s with
      | Some s' =>
          match htrace cfg sched' s' with
          | Some (tr, s'') => Some ((s, c, s') :: tr, s'')
          | None => None
          end
      | None => None
      end
  end.

(** The steps of a run change [count] by the calls of work tasks in them. *)
Definition counts_calls (st : hstep_rec) : Prop :=
  let '(s, _, s') := st in
  count s' = (count s + Z.of_nat (ev_called tw_work st))%Z.

(** ** A measure of what is left of a run *)

Definition enq_pos (pc : enq_pc) : nat :=
  match pc with
  | E_acquire => 0 | E_lock => 1 | E_emplace => 2
  | E_unlock => 3 | E_release => 4 | E_ret => 5
  end.

Section Measure.

Variable cfg : config.

Local Abbreviation R := (num_runs cfg).
Local Abbreviation E := (num_enqueues_per_run cfg).
Local Abbreviation T := (num_threads cfg).

(** The steps [main] has left in the current round. *)
Definition main_rank (pc : main_pc) : nat :=
  match pc with
  | M_exit => 0
  | M_final_assert => 1
  | M_stop_dtor => 0
  | M_members_dtor => 1
  | M_tg_dtor k => 2 + (T - k)
  | M_latch_dtor => 3 + T
  | M_stop_store => 4 + T
  | M_wait => 5 + T
  | M_arrive => 6 + T
  | M_barrier i => 7 + T + 7 * (T - i)
  | M_barrier_enqueue i pc => 6 + T + 7 * (T - i) - enq_pos pc
  | M_latch_init => 8 + 8 * T
  | M_work i => 9 + 8 * T + 7 * Z.to_nat (E - i)
  | M_work_enqueue i pc => 8 + 8 * T + 7 * Z.to_nat (E - i) - enq_pos pc
  | M_tg_ctor i => 10 + 8 * T + 7 * Z.to_nat E + (T - i)
  | M_stop_init => 11 + 9 * T + 7 * Z.to_nat E
  | M_for_test => 12 + 9 * T + 7 * Z.to_nat E
  end.

Definition round_len : nat := 13 + 9 * T + 7 * Z.to_nat E.

(** The steps [main] has left in the whole run. *)
Definition rank (s : hstate) : nat :=
  Z.to_nat (R - runs s) * round_len + main_rank (mpc s).

(** How far a worker is from where it waits for [main]: from the latch
    while the stop flag is false, from its return once it is true. *)
Definition pot (stop : bool) (th : thread worker_pc) : nat :=
  match th with
  | Running pc =>
      if stop then
        match pc with
        | W_wait => 4
        | W_dequeue D_try => 3
        | W_dequeue (D_ret None) => 2
        | W_loop => 1
        | _ => 0
        end
      else
        match pc with
        | W_dequeue (D_unlock _) => 20
        | W_dequeue (D_release _) => 19
        | W_dequeue (D_ret (Some _)) => 18
        | W_call _ => 17
        | W_dequeue (D_ret None) => 17
        | W_loop => 16
        | W_dequeue D_try => 15
        | W_dequeue D_sleep => 14
        | W_dequeue D_lock => 13
        | W_dequeue D_assert => 12
        | W_dequeue D_front => 11
        | W_dequeue (D_pop _) => 10
        | W_wait => 0
        end
  | _ => 0
  end.

Definition workers_left (s : hstate) : nat :=
  21 * length (items (tasks s))
  + sum_list_with (pot (stop_requested s)) (members s).

Definition workers_bound : nat := 21 * capacity cfg + 20 * T + 1.

Definition run_left (s : hstate) : nat := rank s * workers_bound + workers_left s.

End Measure.

(** ** More concrete executions *)

(** The whole run of the small scenario. *)
Definition small_schedule : list choice :=
  replicate 14 Main ++ replicate 9 (Worker 0 false) ++ replicate 8 Main
  ++ replicate 13 (Worker 0 false) ++ replicate 3 Main
  ++ replicate 2 (Worker 0 false) ++ replicate 6 Main.

Definition small_log : list hstep_rec :=
  Eval vm_compute in
    match htrace small_config small_schedule (hinit small_config) with
    | Some (tr, _) => tr
    | None => []
    end.

Definition small_end : hstate :=
  Eval vm_compute in
    match htrace small_config small_schedule (hinit small_config) with
    | Some (_, s) => s
    | None => hinit small_config
    end.

(** Two environments of the constructor of [thread_group]: one where
    nothing fails, one where memory and threads are scarce. *)
Definition ample_env : ctor_env :=
  {| vector_max_size := 1000; alloc_ok := fun _ => true; spawn_ok := fun _ => true |}.

Definition scarce_env : ctor_env :=
  {| vector_max_size := 1000; alloc_ok := fun n => n <? 100;
     spawn_ok := fun i => i <? 2 |}.

(** The largest value of [std::size_t]. *)
Definition SIZE_MAX : nat := Z.to_nat (2 ^ 64 - 1).

(** The first round of the configured scenario from the last test of line
    107 on: [main] enqueues the barrier tasks and arrives, each worker takes
    one and arrives, the latch opens, and [main] goes on to the closing
    brace of line 116 and into the destructor of [tg]. *)
Definition to_join_schedule : list choice :=
  replicate 60 Main
  ++ flat_map (fun j => replicate 11 (Worker j false)) (seq 0 8)
  ++ replicate 3 Main.

(** [main] in [join()] on the first thread, every worker inside
    [l.arrive_and_wait()]. *)
Definition at_join (r c : Z) : hstate :=
  mkH (queue_init 32) c r true 0%Z (replicate 8 (Running W_wait))
      (M_tg_dtor 0) false.

(** * Proofs *)

(** ** Counting threads by program point *)

Section Sums.

Context {A : Type}.
Implicit Types (f g : A -> nat) (l : list A).

Lemma sum_insert f l i x y :
  l !! i = Some x ->
  sum_list_with f (<[i := y]> l) + f x = sum_list_with f l + f y.
Proof.
  revert i. induction l as [|a l IH]; intros [|i] Hi; simplify_eq/=.
  - lia.
  - specialize (IH _ Hi). lia.
Qed.

Lemma sum_lookup_le f l i x : l !! i = Some x -> f x <= sum_list_with f l.
Proof.
  revert i. induction l as [|a l IH]; intros [|i] Hi; simplify_eq/=.
  - lia.
  - specialize (IH _ Hi). lia.
Qed.

Lemma sum_snoc f l x : sum_list_with f (l ++ [x]) = sum_list_with f l + f x.
Proof. rewrite sum_list_with_app. simpl. lia. Qed.

Lemma sum_replicate_zero f n x : f x = 0 -> sum_list_with f (replicate n x) = 0.
Proof. intros Hx. induction n as [|n IH]; simpl; lia. Qed.

Lemma sum_lookup2_le f l i j x y :
  i <> j -> l !! i = Some x -> l !! j = Some y ->
  f x + f y <= sum_list_with f l.
Proof.
  revert i j. induction l as [|a l IH]; intros [|i] [|j] Hne Hi Hj;
    simplify_eq/=.
  - pose proof (sum_lookup_le f l j y Hj). lia.
  - pose proof (sum_lookup_le f l i x Hi). lia.
  - assert (i <> j) as Hne' by congruence.
    specialize (IH i j Hne' Hi Hj). lia.
Qed.

(** Two threads cannot both count for [f] when the total is at most one. *)
Lemma sum_exclusive f l i j x y :
  sum_list_with f l <= 1 -> i <> j ->
  l !! i = Some x -> l !! j = Some y -> 1 <= f x -> f y = 0.
Proof.
  intros Hs Hij Hi Hj Hx.
  pose proof (sum_lookup2_le f l i j x y Hij Hi Hj). lia.
Qed.

End Sums.

(** For every sum over an updated thread list in the goal, relate it to
    the sum over the old list. *)
Ltac sum_facts :=
  repeat match goal with
    | H : ?l !! ?i = Some ?x |- context [sum_list_with ?f (<[?i := ?y]> ?l)] =>
        lazymatch goal with
        | _ : sum_list_with f (<[i := y]> l) + _ = _ |- _ => fail
        | _ => pose proof (sum_insert f l i x y H);
               pose proof (sum_lookup_le f l i x H)
        end
    end.

(** ** The queue under arbitrary clients *)

(** Case analysis of one step: every way [cstep] can succeed. *)
Ltac cstep_cases Hstep :=
  unfold cstep in Hstep;
  match type of Hstep with
  | context [c_aborted ?s] => destruct (c_aborted s) eqn:?; [discriminate|]
  end;
  match type of Hstep with
  | context [c_threads ?s !! ?t] =>
      destruct (c_threads s !! t) as [[|? [] |[]]|] eqn:?; [..|discriminate]
  end;
  match type of Hstep with
  | context [client_step ?a _ _] => destruct a
  end;
  simpl in Hstep;
  unfold sem_acquire, sem_try_acquire_for, sem_release in Hstep;
  repeat match type of Hstep with
    | context [match ?x with _ => _ end] =>
        is_var x; destruct x; simpl in Hstep
    | context [if ?x then _ else _] =>
        is_var x; destruct x; simpl in Hstep
    end;
  simplify_eq/=.

Section ClientProofs.

Context {T : Type}.
Variable N : nat.

Local Abbreviation client_pc := (@client_pc T).
Local Abbreviation cstate := (@cstate T).

Lemma cinv_init n : @cinv T N (cinit N n).
Proof.
  split; simpl; rewrite ?sum_replicate_zero; auto; lia.
Qed.

Lemma cinv_step (s : cstate) t a e s' :
  cinv N s -> cstep t a s = Some (e, s') -> cinv N s'.
Proof.
  intros [Ha Hp Hs Hm] Hstep. destruct s as [[its mtx ip rs] ths ab].
  cstep_cases Hstep; simpl in *; subst.
  all: try (pose proof (sum_lookup_le cw_acquired _ _ _ ltac:(eassumption));
            simpl in *; lia).
  all: split; simpl; rewrite ?length_app; simpl; sum_facts; simpl in *;
    unfold mtx_count in *; try lia.
  all: destruct mtx; lia.
Qed.

End ClientProofs.

Section ClientTheorems.

Context {T : Type}.
Variable N : nat.

Local Abbreviation cstate := (@cstate T).

Lemma cexec_cinv n tr (s : cstate) : cexec N n tr s -> cinv N s.
Proof.
  induction 1 as [|tr s t a e s' _ IH Hstep]; eauto using cinv_init, cinv_step.
Qed.

Lemma crun_cexec n sched tr0 (s0 : cstate) tr s :
  cexec N n tr0 s0 -> crun sched s0 = Some (tr, s) -> cexec N n (tr0 ++ tr) s.
Proof.
  revert tr0 s0 tr. induction sched as [|[t a] sched IH]; intros tr0 s0 tr H0 Hrun;
    simpl in Hrun.
  - simplify_eq. by rewrite app_nil_r.
  - destruct (cstep t a s0) as [[e s1]|] eqn:Hstep; [|done].
    destruct (crun sched s1) as [[tr1 s2]|] eqn:Hrun1; simplify_eq.
    rewrite (assoc_L (++) tr0 [e] tr1 : tr0 ++ e :: tr1 = (tr0 ++ [e]) ++ tr1).
    eapply IH; [|done]. econstructor; eauto.
Qed.

Lemma crun_cexec_init n sched tr (s : cstate) :
  crun sched (cinit N n) = Some (tr, s) -> cexec N n tr s.
Proof. intros. eapply (crun_cexec n sched []); [constructor|done]. Qed.

(** Once the process has aborted, no thread moves. *)
Lemma cstep_aborted (s : cstate) t a : c_aborted s = true -> cstep t a s = None.
Proof. intros H. unfold cstep. by rewrite H. Qed.

(** C1.  In every execution of any number of client threads, when a call
    of [try_dequeue_for] whose timed acquire of [items_produced] succeeded
    has taken the lock and stands at the assertion, the store is not empty:
    the assertion passes and the call goes on to read the head.  Were the
    store empty at that point, the step would be fatal, not a result the
    caller can recover from: the process aborts and no thread moves again. *)
Theorem dequeue_store_nonempty n tr (s : cstate) t :
  cexec N n tr s ->
  c_threads s !! t = Some (InDequeue D_assert) ->
  c_aborted s = false /\
  items_mtx (c_queue s) = true /\
  items (c_queue s) <> [] /\
  (forall b, cstep t (AStep b) s =
     Some ((t, CEv EvAssertNonEmpty),
           mkC (c_queue s) (<[t := InDequeue D_front]> (c_threads s)) false)) /\
  (forall (s0 : cstate) b,
     c_aborted s0 = false ->
     c_threads s0 !! t = Some (InDequeue D_assert) ->
     items (c_queue s0) = [] ->
     exists s1, cstep t (AStep b) s0 = Some ((t, CAbort), s1) /\
                c_aborted s1 = true /\
                forall t' a, cstep t' a s1 = None).
Proof.
  intros Hex Ht. pose proof (cexec_cinv _ _ _ Hex) as [Ha Hp Hs Hm].
  pose proof (sum_lookup_le cw_acquired _ _ _ Ht) as Hacq.
  pose proof (sum_lookup_le cw_critical _ _ _ Ht) as Hcrit.
  simpl in *.
  assert (items (c_queue s) <> []) as Hne.
  { intros Hnil. rewrite Hnil in Hp. simpl in Hp. lia. }
  repeat split; try done.
  - destruct (items_mtx (c_queue s)); [done|]. simpl in *. lia.
  - intros b. unfold cstep. rewrite Ha, Ht. simpl.
    destruct (items (c_queue s)); done.
  - intros s0 b Ha0 Ht0 Hnil. eexists. unfold cstep.
    rewrite Ha0, Ht0. simpl. rewrite Hnil. split; [done|]. split; [done|].
    intros. by apply cstep_aborted.
Qed.

(** C5.  In every reachable state the store holds at most [N] items: the
    units of [remaining_space], the slots producers have reserved, the items
    in the store and the slots consumers have not yet given back always add
    up to [N]. *)
Theorem capacity_bound n tr (s : cstate) :
  cexec N n tr s ->
  length (items (c_queue s)) <= N /\
  remaining_space (c_queue s) + sum_list_with cw_reserved (c_threads s)
  + length (items (c_queue s)) + sum_list_with cw_popped (c_threads s) = N.
Proof.
  intros Hex. pose proof (cexec_cinv _ _ _ Hex) as [Ha Hp Hs Hm].
  split; [lia|done].
Qed.

Lemma enqueue_step_not_fatal (x : T) q pc : enqueue_step x q pc <> Fatal.
Proof.
  destruct pc; simpl; try done.
  - by destruct (sem_acquire _).
  - by destruct (items_mtx q).
Qed.

Lemma enqueue_from_not_fatal fuel (x : T) q pc : enqueue_from fuel x q pc <> Fatal.
Proof.
  revert q pc. induction fuel as [|fuel IH]; intros q pc; [by destruct pc|].
  assert (pc = E_ret \/
          enqueue_from (S fuel) x q pc =
          match enqueue_step x q pc with
          | Next (_, q', pc') => enqueue_from fuel x q' pc'
          | Blocked => Blocked
          | Fatal => Fatal
          end) as [Hpc|Hpc] by (destruct pc; auto);
    [by subst|rewrite Hpc].
  destruct (enqueue_step x q pc) as [[[e q'] pc']| |] eqn:Hst; [apply IH|done|].
  by apply enqueue_step_not_fatal in Hst.
Qed.

Lemma enqueue_trace_order (x : T) es :
  enqueue_trace x E_acquire es E_ret ->
  es = [EvAcquireSpace; EvLock; EvEmplace x; EvUnlock; EvReleaseProduced].
Proof.
  intros H.
  repeat match goal with
    | H : enqueue_step _ _ _ = Next _ |- _ =>
        unfold enqueue_step in H;
        repeat match type of H with
          | context [match ?c with _ => _ end] => destruct c
          end;
        simplify_eq
    | H : enqueue_trace _ ?pc _ _ |- _ =>
        first [is_var pc; fail 1 | inversion H; clear H; subst]
    end.
  reflexivity.
Qed.

(** C3.  A call of [enqueue] performs, in this order and nothing else:
    the acquire of [remaining_space], the lock, the append of the item at the
    tail, the unlock, the release of [items_produced].  The acquire blocks
    exactly when no unit is left, which is the case whenever the store is at
    capacity; the append happens with the mutex held and no other thread
    inside a locked block; the release comes after the unlock.  No step of
    [enqueue] is ever fatal, and run on its own with a free slot and a free
    mutex the call returns with the item at the tail. *)
Theorem enqueue_steps_in_order n tr (s : cstate) t (x : T) pc :
  cexec N n tr s ->
  c_threads s !! t = Some (InEnqueue x pc) ->
  (forall es, enqueue_trace x E_acquire es E_ret ->
     es = [EvAcquireSpace; EvLock; EvEmplace x; EvUnlock; EvReleaseProduced]) /\
  (forall q, enqueue_step x q E_acquire = Blocked <-> remaining_space q = 0) /\
  (forall q c, items_mtx q = false -> remaining_space q = S c ->
     enqueue x q =
     Next (mkQueue (items q ++ [x]) false (S (items_produced q)) c)) /\
  (forall fuel q pc', enqueue_from fuel x q pc' <> Fatal) /\
  (forall b, cstep t (AStep b) s <> Some ((t, CAbort), mkC (c_queue s) (c_threads s) true)) /\
  (pc = E_acquire -> length (items (c_queue s)) = N ->
     forall b, cstep t (AStep b) s = None) /\
  (pc = E_emplace \/ pc = E_unlock ->
     items_mtx (c_queue s) = true /\
     forall t' pc', t' <> t -> c_threads s !! t' = Some pc' ->
                    cw_critical pc' = 0).
Proof.
  intros Hex Ht. pose proof (cexec_cinv _ _ _ Hex) as [Ha Hp Hs Hm].
  split; [apply enqueue_trace_order|].
  split.
  { intros q. simpl. destruct (remaining_space q); simpl; split; done. }
  split.
  { intros [its mtx ip rs] c; simpl; intros -> ->. reflexivity. }
  split; [intros; apply enqueue_from_not_fatal|].
  split.
  { intros b. unfold cstep. rewrite Ha, Ht.
    destruct pc; simpl; repeat case_match; simplify_eq; congruence. }
  split.
  { intros -> Hfull b. unfold cstep. rewrite Ha, Ht. simpl.
    assert (remaining_space (c_queue s) = 0) as -> by lia. done. }
  intros Hpc.
  pose proof (sum_lookup_le cw_critical _ _ _ Ht) as Hc.
  assert (cw_critical (InEnqueue x pc) = 1) as Hone by (by destruct Hpc as [-> | ->]).
  rewrite Hone in Hc.
  assert (items_mtx (c_queue s) = true) as Hmtx.
  { destruct (items_mtx (c_queue s)); [done|]. simpl in *. lia. }
  split; [done|]. intros t' pc' Hne Ht'.
  eapply (sum_exclusive cw_critical _ t t'); eauto.
  - rewrite Hm, Hmtx. simpl. lia.
  - lia.
Qed.

End ClientTheorems.

Section DequeueTheorems.

Context {T : Type}.
Variable N : nat.

Local Abbreviation cstate := (@cstate T).

(** C4.  When the timed acquire of [items_produced] times out, the call of
    [try_dequeue_for] goes straight to returning the empty optional; the
    only thing the thread can do next is return it.  Nothing aborts, and the
    worker of the stress driver that gets the empty optional goes back to
    its loop test. *)
Theorem dequeue_timeout_returns_empty (s : cstate) t (hs : hstate) :
  c_aborted s = false ->
  c_threads s !! t = Some (InDequeue D_try) ->
  let s1 := mkC (c_queue s) (<[t := InDequeue (D_ret None)]> (c_threads s))
                false in
  cstep t (AStep true) s = Some ((t, CEv (EvTryAcquireProduced false)), s1) /\
  cstep t AReturn s1 =
    Some ((t, CRetDequeue None),
          mkC (c_queue s) (<[t := Idle]> (c_threads s)) false) /\
  (forall a e s2, cstep t a s1 = Some (e, s2) -> e = (t, CRetDequeue None)) /\
  try_dequeue_for true (c_queue s) = Next (None, c_queue s) /\
  (forall b, worker_step b hs (W_dequeue (D_ret None)) =
     Next (tasks hs, count hs, l_counter hs, Running W_loop)).
Proof.
  intros Ha Ht s1.
  assert (c_threads s1 !! t = Some (InDequeue (D_ret None))) as Ht1.
  { simpl. apply list_lookup_insert_eq. by eapply lookup_lt_Some. }
  repeat split.
  - unfold cstep. rewrite Ha, Ht. reflexivity.
  - unfold cstep. rewrite Ht1. simpl. by rewrite list_insert_insert_eq.
  - intros a e s2. unfold cstep. rewrite Ht1. simpl.
    destruct a; simpl; congruence.
Qed.

Ltac deq_step_inv H :=
  unfold try_dequeue_for_step, sem_try_acquire_for in H;
  repeat match type of H with
    | context [match ?c with _ => _ end] => destruct c eqn:?
    end;
  simplify_eq.

(** Past the timed acquire, a call can only return an item. *)
Lemma dequeue_trace_returns_item (pc : deq_pc T) steps r :
  try_dequeue_for_trace pc steps (D_ret r) ->
  pc <> D_try -> pc = D_ret r \/ is_Some r.
Proof.
  remember (D_ret r) as pc'' eqn:Hr.
  induction 1 as [pc|b pc q e q' pc' steps pc'' Hstep Htr IH]; intros Hne;
    [by left|].
  subst pc''. right.
  destruct pc; try done; deq_step_inv Hstep;
    (destruct IH as [?|?]; [done|done|simplify_eq; eauto|done]).
Qed.

(** C10.  The step on which the timed acquire fails leaves the queue as
    it was, and so does the return that follows: no item is removed, no unit
    of [items_produced] is taken and no unit of [remaining_space] is given
    back.  A call that returns the empty optional has taken that one step
    only. *)
Theorem dequeue_timeout_no_effect (s : cstate) t b s' :
  cstep t (AStep b) s = Some ((t, CEv (EvTryAcquireProduced false)), s') ->
  c_queue s' = c_queue s /\
  c_threads s' !! t = Some (InDequeue (D_ret None)) /\
  (forall e s'', cstep t AReturn s' = Some (e, s'') ->
                 e = (t, CRetDequeue None) /\ c_queue s'' = c_queue s) /\
  (forall steps, @try_dequeue_for_trace T D_try steps (D_ret None) ->
                 exists q, steps = [(q, EvTryAcquireProduced false, q)]) /\
  (forall b' (q q' : queue T), try_dequeue_for b' q = Next (None, q') -> q' = q).
Proof.
  intros Hstep.
  assert (c_queue s' = c_queue s /\
          c_threads s' !! t = Some (InDequeue (D_ret None))) as [Hq Ht'].
  { unfold cstep in Hstep. destruct (c_aborted s); [done|].
    destruct (c_threads s !! t) as [pc|] eqn:Ht; [|done].
    apply lookup_lt_Some in Ht as Hlt.
    destruct pc as [|x []|[]]; simpl in Hstep;
      unfold sem_acquire, sem_try_acquire_for in Hstep;
      repeat case_match; simplify_eq; simpl.
    split; [done|]. by apply list_lookup_insert_eq. }
  split; [done|]. split; [done|]. split.
  { intros e s''. unfold cstep. destruct (c_aborted s'); [done|].
    rewrite Ht'. simpl. intros [= <- <-]. simpl. done. }
  split.
  { intros steps Htr. inversion Htr as [|b0 pc q e q' pc' steps' pc'' Hst Htr']; subst.
    deq_step_inv Hst.
    - apply dequeue_trace_returns_item in Htr' as [[=]|[? [=]]]; done.
    - exists q'. inversion Htr' as [|? ? ? ? ? ? ? ? Hst']; subst; [done|].
      simpl in Hst'. done. }
  intros b' [its mtx ip rs] q'.
  destruct b'; [cbv; congruence|].
  destruct ip; [cbv; congruence|]. destruct mtx; [cbv; congruence|].
  destruct its as [|x its]; cbv; congruence.
Qed.

End DequeueTheorems.

Section FifoTheorems.

Context {T : Type}.
Variable N : nat.

Local Abbreviation cstate := (@cstate T).
Local Abbreviation cevent := (@cevent T).

Lemma pushes_app (tr1 tr2 : list (nat * cevent)) :
  pushes (tr1 ++ tr2) = pushes tr1 ++ pushes tr2.
Proof.
  induction tr1 as [|[t [| |[]| | |]] tr1 IH]; simpl; by rewrite ?IH.
Qed.

Lemma pops_app (tr1 tr2 : list (nat * cevent)) :
  pops (tr1 ++ tr2) = pops tr1 ++ pops tr2.
Proof.
  induction tr1 as [|[t [| |[]| | |]] tr1 IH]; simpl; by rewrite ?IH.
Qed.


(** The removed items are a prefix of the inserted items; what is left is
    the store. *)
Lemma pushes_pops_items n tr (s : cstate) :
  cexec N n tr s -> pushes tr = pops tr ++ items (c_queue s).
Proof.
  induction 1 as [|tr s t a e s' Hex IH Hstep]; [done|].
  rewrite pushes_app, pops_app, IH. clear IH Hex.
  destruct s as [[its mtx ip rs] ths ab].
  cstep_cases Hstep; simpl; rewrite ?app_nil_r; try done.
  all: by rewrite <- app_assoc.
Qed.







End FifoTheorems.

(** ** The stress driver *)

Lemma task_count_length (q : list task) :
  length q = sum_list_with tw_work q + sum_list_with tw_barrier q.
Proof. induction q as [|[] q IH]; simpl; lia. Qed.

Lemma barriers_last_no_work (q : list task) :
  sum_list_with tw_work q = 0 -> barriers_last q.
Proof. induction q as [|[] q IH]; simpl; intros; auto; lia. Qed.

Lemma barriers_last_tail (x : task) (q : list task) :
  barriers_last (x :: q) -> barriers_last q.
Proof. destruct x; simpl; auto using barriers_last_no_work. Qed.

Lemma barriers_last_snoc_work (q : list task) :
  barriers_last q -> sum_list_with tw_barrier q = 0 -> barriers_last (q ++ [Work]).
Proof. induction q as [|[] q IH]; simpl; intros; auto; lia. Qed.

Lemma barriers_last_snoc_barrier (q : list task) :
  barriers_last q -> barriers_last (q ++ [Barrier]).
Proof.
  induction q as [|[] q IH]; simpl; intros; auto.
  rewrite sum_snoc. simpl. lia.
Qed.

Lemma hw_sums_bound (m : list (thread worker_pc)) :
  sum_list_with hw_critical m <= sum_list_with hw_acquired m + sum_list_with hw_popped m /\
  sum_list_with hw_popped m <=
    sum_list_with (hw_holds tw_work) m + sum_list_with (hw_holds tw_barrier) m /\
  sum_list_with hw_wait m + sum_list_with hw_acquired m
    + sum_list_with (hw_holds tw_work) m + sum_list_with (hw_holds tw_barrier) m
    <= length m.
Proof.
  induction m as [|th m IH]; simpl; [lia|].
  assert (hw_critical th <= hw_acquired th + hw_popped th /\
          hw_popped th <= hw_holds tw_work th + hw_holds tw_barrier th /\
          hw_wait th + hw_acquired th + hw_holds tw_work th
            + hw_holds tw_barrier th <= 1) as Hth.
  { destruct th as [[|[| | | | | | [] | [] |[[]|]]|[]|]| |]; simpl; lia. }
  lia.
Qed.

Section HarnessInv.

Variable cfg : config.

Local Abbreviation R := (num_runs cfg).
Local Abbreviation E := (num_enqueues_per_run cfg).
Local Abbreviation T := (num_threads cfg).

Lemma hinv_init : cfg_ok cfg -> hinv cfg (hinit cfg).
Proof.
  intros [? ? ? ?]. split; simpl; try done; try lia.
Qed.

End HarnessInv.

Lemma wrap_size_t_small z : (0 <= z < 2 ^ 64)%Z -> wrap_size_t z = z.
Proof. intros. unfold wrap_size_t. apply Z.mod_small. lia. Qed.

Lemma wrap_int_small z : (0 <= z < 2 ^ 31)%Z -> wrap_int z = z.
Proof.
  intros. unfold wrap_int. rewrite Z.mod_small; lia.
Qed.

Lemma round_bound (r R E : Z) : (0 <= r < R)%Z -> (0 <= E)%Z -> (r * E + E <= R * E)%Z.
Proof. intros. nia. Qed.

Section HarnessProofs.

Variable cfg : config.
Hypothesis Hok : cfg_ok cfg.

Local Abbreviation R := (num_runs cfg).
Local Abbreviation E := (num_enqueues_per_run cfg).
Local Abbreviation T := (num_threads cfg).

Ltac main_cases Hstep :=
  unfold main_step, main_enqueue, thread_group_ctor_step,
    thread_group_dtor_step, thread_join, latch_try_wait, latch_count_down,
    enqueue_step, sem_acquire, sem_release in Hstep;
  simpl in Hstep;
  repeat match type of Hstep with
    | context [(?a <? ?b)%Z] => destruct (Z.ltb_spec a b); simpl in Hstep
    | context [(?a =? ?b)%Z] => destruct (Z.eqb_spec a b); simpl in Hstep
    | context [?a <? ?b] => destruct (Nat.ltb_spec a b); simpl in Hstep
    | context [match ?x with _ => _ end] =>
        is_var x; destruct x; simpl in Hstep
    | context [if ?x then _ else _] =>
        is_var x; destruct x; simpl in Hstep
    | context [match ?l !! ?k with _ => _ end] =>
        destruct (l !! k) as [[]|] eqn:?; simpl in Hstep
    end;
  simplify_eq/=.

Lemma hinv_main s s' : hinv cfg s -> main_step cfg s = Next s' -> hinv cfg s'.
Proof.
  intros Hinv Hstep. destruct Hok as [HR HE HRE HT].
  destruct s as [[its mtx ip rs] cnt rn stop l mem pc ab].
  destruct Hinv as [Ha Hp Hs Hm Hf Hsh Hc0 Hc Hr0 Hr Hth Hwf Hj Hst Hph].
  simpl in *.
  pose proof (hw_sums_bound mem) as (Hb1 & Hb2 & Hb3).
  pose proof (task_count_length its) as Hlen.
  destruct pc as [| |i|i|i []| |i|i []| | | | |k| | | |];
    main_cases Hstep; unfold phase_inv in Hph; simpl in Hph.
  all: rewrite ?wrap_size_t_small by lia.
  all: repeat match goal with
         | H : _ !! _ = Some _ |- _ => apply lookup_lt_Some in H as ?; revert H
         | H : _ !! _ = None |- _ => apply lookup_ge_None in H
         end; intros.
  all: split; simpl; unfold phase_inv; simpl;
    rewrite ?length_app, ?sum_snoc, ?length_insert; simpl; try done;
    sum_facts; simpl in *; try lia.
  all: try (intros ? [= <-]; reflexivity).
  all: try (destruct mtx; simpl in *; lia).
  all: auto using barriers_last_snoc_barrier.
  all: try (apply barriers_last_snoc_work; [assumption|lia]).
  - intros j tmp Hl. apply lookup_app_Some in Hl as [Hl|[? Hl]]; [eauto|].
    destruct (j - length mem) as [|[]]; simplify_eq/=.
  - intros j Hlt. split; [|lia]. intros Hl.
    apply lookup_app_Some in Hl as [Hl|[? Hl]].
    + apply Hj; [by eapply lookup_lt_Some|done].
    + destruct (j - length mem) as [|[]]; simplify_eq/=.
  - intros j tmp Hl. pose proof (sum_lookup_le hw_critical _ _ _ Hl).
    destruct mtx; simpl in *; lia.
  - intros j tmp Hl. pose proof (sum_lookup_le hw_critical _ _ _ Hl).
    destruct mtx; simpl in *; lia.
  - intros j tmp Hl. destruct (decide (j = k)) as [->|Hne].
    + rewrite list_lookup_insert_eq in Hl by lia. discriminate.
    + rewrite list_lookup_insert_ne in Hl by done. eauto.
  - intros j Hlt. destruct (decide (j = k)) as [->|Hne].
    + rewrite list_lookup_insert_eq by lia. split; [lia|done].
    + rewrite list_lookup_insert_ne by done. rewrite Hj by lia. lia.
  - intros j Hlt. rewrite Hj by lia. lia.
Qed.

Lemma hinv_main_not_fatal s : hinv cfg s -> main_step cfg s <> Fatal.
Proof.
  intros Hinv Hstep. destruct Hok as [HR HE HRE HT].
  destruct s as [[its mtx ip rs] cnt rn stop l mem pc ab].
  destruct Hinv as [Ha Hp Hs Hm Hf Hsh Hc0 Hc Hr0 Hr Hth Hwf Hj Hst Hph].
  simpl in *.
  destruct pc as [| |i|i|i []| |i|i []| | | | |k| | | |];
    main_cases Hstep; unfold phase_inv in Hph; simpl in Hph.
  - apply lookup_lt_Some in Heqo as Hlt. apply Hj in Heqo; [lia|done].
  - pose proof (hw_sums_bound mem) as (Hb1 & Hb2 & Hb3).
    pose proof (task_count_length its) as Hlen.
    match goal with H : _ <> _ |- _ => apply H end. f_equal. lia.
Qed.

(** What the program point of [main] says about the counters. *)
Lemma main_pc_facts pc r :
  m_wf cfg pc -> m_runs cfg pc r ->
  m_arrived pc <= 1 /\
  pushed_barrier cfg pc <= T /\
  (0 <= pushed_work cfg pc <= E)%Z /\
  (phase_of pc = PhIdle -> m_threads cfg pc = 0) /\
  (phase_of pc <> PhIdle -> (r < R)%Z) /\
  (phase_of pc = PhWork \/ phase_of pc = PhBarrier \/ phase_of pc = PhDrained ->
   m_threads cfg pc = T) /\
  (phase_of pc <> PhDrained -> m_joined cfg pc = 0) /\
  (phase_of pc = PhDrained -> m_enq e_pushed pc = 0 /\ m_enq e_critical pc = 0) /\
  (phase_of pc = PhCtor -> m_enq e_pushed pc = 0).
Proof.
  destruct Hok as [HR HE HRE HT].
  destruct pc as [| |i|i|i []| |i|i []| | | | |k| | | |]; simpl; intros;
    repeat split; intros; try done; try lia;
    repeat match goal with H : _ \/ _ |- _ => destruct H end; done.
Qed.

Lemma front_preserved (mem : list (thread worker_pc)) j th (its its' : list task) :
  (forall j0 tmp, mem !! j0 = Some (Running (W_dequeue (D_pop tmp))) ->
                  front_is its tmp) ->
  (forall tmp, th = Running (W_dequeue (D_pop tmp)) -> front_is its' tmp) ->
  its' = its \/
    (j < length mem /\ hw_critical th = 1 /\
     sum_list_with hw_critical (<[j := th]> mem) <= 1) ->
  forall j0 tmp,
    <[j := th]> mem !! j0 = Some (Running (W_dequeue (D_pop tmp))) ->
    front_is its' tmp.
Proof.
  intros Hold Hnew Hcase j0 tmp Hl.
  destruct (decide (j0 = j)) as [->|Hne].
  - apply lookup_lt_Some in Hl as Hlt. rewrite length_insert in Hlt.
    rewrite list_lookup_insert_eq in Hl by done. apply Hnew. congruence.
  - destruct Hcase as [->|(Hlt & Hc & Hs)].
    + rewrite list_lookup_insert_ne in Hl by done. eauto.
    + assert (<[j := th]> mem !! j = Some th) as Hj
        by (by apply list_lookup_insert_eq).
      pose proof (sum_lookup2_le hw_critical _ _ _ _ _ Hne Hl Hj).
      simpl in *. lia.
Qed.

Lemma joined_preserved (mem : list (thread worker_pc)) j pc th k :
  mem !! j = Some (Running pc) -> th <> Joined ->
  (forall j0, j0 < length mem -> mem !! j0 = Some Joined <-> j0 < k) ->
  forall j0, j0 < length mem -> <[j := th]> mem !! j0 = Some Joined <-> j0 < k.
Proof.
  intros Hj Hth Hold j0 Hlt.
  destruct (decide (j0 = j)) as [->|Hne].
  - rewrite list_lookup_insert_eq by done. rewrite <- Hold by done.
    rewrite Hj. split; congruence.
  - rewrite list_lookup_insert_ne by done. auto.
Qed.

Ltac worker_cases Hstep :=
  unfold worker_step, latch_try_wait, latch_count_down in Hstep;
  simpl in Hstep;
  unfold sem_try_acquire_for, sem_release in Hstep;
  repeat match type of Hstep with
    | context [(?a =? ?b)%Z] => destruct (Z.eqb_spec a b); simpl in Hstep
    | context [match ?x with _ => _ end] =>
        is_var x; destruct x; simpl in Hstep
    | context [if ?x then _ else _] =>
        is_var x; destruct x; simpl in Hstep
    end;
  simplify_eq/=.

Lemma hinv_worker s j timed_out pc q c l th :
  hinv cfg s -> members s !! j = Some (Running pc) ->
  worker_step timed_out s pc = Next (q, c, l, th) ->
  hinv cfg (mkH q c (runs s) (stop_requested s) l (<[j := th]> (members s))
                (mpc s) false).
Proof.
  intros Hinv Hj0 Hstep. destruct Hok as [HR HE HRE HT].
  destruct s as [[its mtx ip rs] cnt rn stop l0 mem mp ab].
  destruct Hinv as [Ha Hp Hs Hm Hf Hsh Hc0 Hc Hr0 Hr Hth Hwf Hj Hst Hph].
  simpl in *.
  pose proof (main_pc_facts mp rn Hwf Hr) as (F1 & F2 & F3 & F4 & F5 & F6 & F7 & F8 & F9).
  pose proof (hw_sums_bound mem) as (Hb1 & Hb2 & Hb3).
  pose proof (task_count_length its) as Hlen.
  pose proof (lookup_lt_Some _ _ _ Hj0) as Hlt.
  assert (phase_of mp <> PhIdle) as Hni.
  { intros Hi. specialize (F4 Hi). lia. }
  specialize (F5 Hni).
  pose proof (round_bound rn R E ltac:(lia) ltac:(lia)) as Hrb.
  destruct pc as [|[| | | | |tmp|tmp|tmp|[f|]]|[]|]; worker_cases Hstep.
  all: try match goal with
         | H : items _ = _ |- _ => simpl in H
         end.
  all: match goal with
       | |- hinv _ {| members := <[_ := ?th]> _ |} =>
           pose proof (sum_insert hw_acquired _ _ _ th Hj0) as Ia;
           pose proof (sum_insert hw_popped _ _ _ th Hj0) as Ip;
           pose proof (sum_insert hw_critical _ _ _ th Hj0) as Ic;
           pose proof (sum_insert (hw_holds tw_work) _ _ _ th Hj0) as Iw;
           pose proof (sum_insert (hw_holds tw_barrier) _ _ _ th Hj0) as Ib;
           pose proof (sum_insert hw_wait _ _ _ th Hj0) as Iq;
           pose proof (hw_sums_bound (<[j := th]> mem)) as (Hb1' & Hb2' & Hb3')
       end;
       rewrite ?length_insert in *; simpl in *.
  all: try (pose proof (Hf _ _ Hj0) as Hhd; unfold front_is in Hhd;
            simpl in Hhd; simplify_eq/=).
  all: rewrite ?wrap_int_small by lia.
  all: split; simpl; rewrite ?length_insert; try done; try lia.
  all: try (eapply joined_preserved; eauto; done).
  all: try (eapply front_preserved; [eassumption| intros ? [= <-]; done | ];
            first [left; reflexivity | right; simpl; destruct mtx; simpl in *; lia ]).
  all: try (destruct mtx; simpl in *; lia).
  all: eauto using barriers_last_tail.
  all: unfold phase_inv in *; simpl in *; destruct (phase_of mp) eqn:Hphase;
    try done;
    repeat match goal with
      | H : @eq phase _ _ -> _ |- _ =>
          first [specialize (H eq_refl) | clear H]
      | H : not (@eq phase _ _) -> _ |- _ =>
          first [specialize (H ltac:(discriminate)) | clear H]
      | H : _ \/ _ -> _ |- _ =>
          first [specialize (H ltac:(auto)) | clear H]
      end;
    try lia.
  all: try (destruct tmp; simpl in *; lia).
Qed.

Lemma hinv_worker_not_fatal s j timed_out pc :
  hinv cfg s -> members s !! j = Some (Running pc) ->
  worker_step timed_out s pc <> Fatal.
Proof.
  intros Hinv Hj0 Hstep.
  destruct s as [[its mtx ip rs] cnt rn stop l0 mem mp ab].
  destruct Hinv as [Ha Hp Hs Hm Hf Hsh Hc0 Hc Hr0 Hr Hth Hwf Hj Hst Hph].
  simpl in *.
  pose proof (sum_lookup_le hw_acquired _ _ _ Hj0) as Hle.
  destruct pc as [|[| | | | |tmp|tmp|tmp|[f|]]|[]|]; worker_cases Hstep;
    simpl in *; lia.
Qed.

Theorem hinv_step c s s' : hinv cfg s -> hstep cfg c s = Some s' -> hinv cfg s'.
Proof.
  intros Hinv Hstep. unfold hstep in Hstep.
  rewrite (hi_alive _ _ Hinv) in Hstep.
  destruct c as [|j timed_out].
  - destruct (main_step cfg s) as [s1| |] eqn:Hm; simplify_eq.
    + eauto using hinv_main.
    + by apply hinv_main_not_fatal in Hm.
  - destruct (members s !! j) as [[pc| |]|] eqn:Hj; simplify_eq.
    destruct (worker_step timed_out s pc) as [[[[q n] l] th]| |] eqn:Hw;
      simplify_eq.
    + eauto using hinv_worker.
    + by eapply hinv_worker_not_fatal in Hw.
Qed.

Theorem hinv_reachable s : hreachable cfg s -> hinv cfg s.
Proof.
  induction 1; eauto using hinv_init, hinv_step.
Qed.

End HarnessProofs.

Section HarnessTheorems.

Variable cfg : config.
Hypothesis Hok : cfg_ok cfg.

Local Abbreviation R := (num_runs cfg).
Local Abbreviation E := (num_enqueues_per_run cfg).
Local Abbreviation T := (num_threads cfg).

Lemma hrun_hreach sched s0 s s' :
  hreach cfg s0 s -> hrun cfg sched s = Some s' -> hreach cfg s0 s'.
Proof.
  revert s. induction sched as [|c sched IH]; intros s Hs Hrun; simpl in Hrun.
  - by simplify_eq.
  - destruct (hstep cfg c s) as [s1|] eqn:Hstep; [|done].
    eapply IH; [|done]. econstructor; eauto.
Qed.

Lemma first_enabled_step cs s s' :
  first_enabled cfg cs s = Some s' -> exists c, hstep cfg c s = Some s'.
Proof.
  induction cs as [|c cs IH]; simpl; [done|].
  destruct (hstep cfg c s) eqn:Hstep; intros; simplify_eq; eauto.
Qed.

Lemma hrun_greedy_reach fuel s0 s :
  hreach cfg s0 s -> hreach cfg s0 (hrun_greedy cfg fuel s).
Proof.
  revert s. induction fuel as [|fuel IH]; intros s Hs; [exact Hs|].
  cbn [hrun_greedy].
  destruct (first_enabled cfg (candidates cfg) s) as [s1|] eqn:Hfe;
    [|exact Hs].
  apply first_enabled_step in Hfe as [c Hstep].
  apply IH. econstructor; eauto.
Qed.

(** Between the rounds, while the workers are started and once the barrier
    has opened, the queue is as it was constructed. *)
Lemma hinv_drained s :
  hinv cfg s ->
  phase_of (mpc s) = PhIdle \/ phase_of (mpc s) = PhCtor \/
  phase_of (mpc s) = PhDrained ->
  tasks s = queue_init (capacity cfg).
Proof.
  intros Hinv Hphase.
  destruct s as [[its mtx ip rs] cnt rn stop l mem pc ab].
  destruct Hinv as [Ha Hp Hs Hm Hf Hsh Hc0 Hc Hr0 Hr Hth Hwf Hj Hst Hph].
  simpl in *.
  pose proof (main_pc_facts cfg Hok pc rn Hwf Hr)
    as (F1 & F2 & F3 & F4 & F5 & F6 & F7 & F8 & F9).
  pose proof (hw_sums_bound mem) as (Hb1 & Hb2 & Hb3).
  unfold phase_inv in Hph. simpl in Hph.
  assert (length its = 0 /\ ip = 0 /\ rs = capacity cfg /\ mtx_count mtx = 0)
    as (Hl & -> & -> & Hmtx).
  { destruct Hphase as [Hp0|[Hp0|Hp0]]; rewrite Hp0 in *.
    - specialize (F4 eq_refl).
      assert (m_enq e_pushed pc = 0 /\ m_enq e_reserved pc = 0 /\
              m_enq e_critical pc = 0) as (? & ? & ?).
      { destruct pc; simpl in *; try done. }
      lia.
    - specialize (F9 eq_refl).
      assert (m_enq e_reserved pc = 0 /\ m_enq e_critical pc = 0) as (? & ?).
      { destruct pc; simpl in *; try done. }
      lia.
    - destruct (F8 eq_refl) as [? ?].
      assert (m_enq e_reserved pc = 0).
      { destruct pc; simpl in *; try done. }
      lia. }
  destruct its; [|done]. destruct mtx; [done|]. reflexivity.
Qed.

(** While the latch of a round is alive its counter stays between 0
    and [num_threads + 1], and as long as it is positive the arrivals so far
    are [main]'s own, if it has arrived, and one for each worker blocked in a
    barrier task.  When the counter is 0 with [main] waiting, every barrier
    task has been taken and run and [main] goes on to line 115.
    [stop_requested] is still false when [main] stands at line 115 and the
    barrier has opened by then; it is true exactly from the store of line 115
    to the end of the round, never earlier. *)
Lemma latch_state s :
  hreachable cfg s ->
  (l_alive (mpc s) = true ->
     (0 <= l_counter s <= Z.of_nat T + 1)%Z /\
     ((0 < l_counter s)%Z ->
        (Z.of_nat T + 1 - l_counter s)%Z =
        Z.of_nat (m_arrived (mpc s) + sum_list_with hw_wait (members s)))) /\
  (mpc s = M_wait -> l_counter s = 0%Z ->
     main_step cfg s = Next (set_mpc s M_stop_store) /\
     sum_list_with (hw_holds tw_barrier) (members s) = 0 /\
     sum_list_with tw_barrier (items (tasks s)) = 0) /\
  (mpc s = M_stop_store -> l_counter s = 0%Z /\ stop_requested s = false) /\
  (stop_alive (mpc s) = true ->
     (stop_requested s = true <->
      mpc s = M_latch_dtor \/ (exists k, mpc s = M_tg_dtor k) \/
      mpc s = M_members_dtor \/ mpc s = M_stop_dtor)) /\
  (stop_alive (mpc s) = true -> stop_requested s = true ->
     l_counter s = 0%Z \/ mpc s = M_stop_dtor).
Proof.
  intros Hre. pose proof (hinv_reachable cfg Hok s Hre) as Hinv.
  destruct Hok as [HR HE HRE HT].
  destruct s as [[its mtx ip rs] cnt rn stop l mem pc ab].
  destruct Hinv as [Ha Hp Hs Hm Hf Hsh Hc0 Hc Hr0 Hr Hth Hwf Hj Hst Hph].
  simpl in *.
  pose proof (main_pc_facts cfg Hok pc rn Hwf Hr)
    as (F1 & F2 & F3 & F4 & F5 & F6 & F7 & F8 & F9).
  pose proof (hw_sums_bound mem) as (Hb1 & Hb2 & Hb3).
  unfold phase_inv in Hph. simpl in Hph.
  split.
  { intros Hl. destruct pc; simpl in *; try done; (split; [lia|intros; lia]). }
  split.
  { intros -> ->. simpl in *. split; [|lia].
    unfold main_step, latch_try_wait. simpl. done. }
  split.
  { intros ->. simpl in *. split; [lia|by apply Hst]. }
  split.
  { intros Hsa. split.
    - intros ->. destruct pc; simpl in *; try done; eauto 10;
        specialize (Hst false eq_refl); done.
    - intros [->|[[k ->]|[->| ->]]]; by apply Hst. }
  intros Hsa ->.
  destruct pc; simpl in *; try done; try (left; lia); try (by right);
    specialize (Hst false eq_refl); done.
Qed.

(** C8.  Between two rounds, while the workers of a round are started, and
    from the opening of the barrier to the end of the round, the queue is as
    it was constructed: empty store, free mutex, no unit of [items_produced]
    and all [capacity] units of [remaining_space].  At the first and the
    last program point of a round no thread exists.  No step taken between
    two rounds touches the queue: it is the one object made on line 83. *)
Theorem round_isolation s :
  hreachable cfg s ->
  (phase_of (mpc s) = PhIdle \/ phase_of (mpc s) = PhCtor \/
   phase_of (mpc s) = PhDrained ->
   tasks s = queue_init (capacity cfg)) /\
  (mpc s = M_stop_init \/ mpc s = M_stop_dtor ->
   tasks s = queue_init (capacity cfg) /\ members s = []) /\
  (forall c s',
     hstep cfg c s = Some s' ->
     mpc s = M_stop_dtor \/ mpc s = M_for_test \/ mpc s = M_stop_init ->
     tasks s' = tasks s).
Proof.
  intros Hre. pose proof (hinv_reachable cfg Hok s Hre) as Hinv.
  split; [by apply hinv_drained|]. split.
  - intros Hpc. split.
    + apply hinv_drained; [done|]. left. by destruct Hpc as [-> | ->].
    + pose proof (hi_threads _ _ Hinv) as Hth.
      destruct Hpc as [Hpc|Hpc]; rewrite Hpc in Hth; simpl in Hth;
        by destruct (members s).
  - intros c s' Hstep Hpc.
    pose proof (hi_threads _ _ Hinv) as Hth.
    unfold hstep in Hstep. rewrite (hi_alive _ _ Hinv) in Hstep.
    destruct c as [|j b].
    + unfold main_step in Hstep.
      destruct Hpc as [Hpc|[Hpc|Hpc]]; rewrite Hpc in Hstep; simpl in Hstep;
        repeat case_match; simplify_eq; done.
    + assert (members s = []) as Hnil.
      { destruct Hpc as [Hpc|[Hpc|Hpc]]; rewrite Hpc in Hth; simpl in Hth;
          by destruct (members s). }
      rewrite Hnil in Hstep. done.
Qed.

Lemma dtor_inv_step c s s' :
  dtor_inv s -> hstep cfg c s = Some s' -> dtor_inv s'.
Proof.
  intros Hinv Hstep. unfold hstep in Hstep.
  destruct (aborted s) eqn:Hab; [done|].
  destruct s as [q cnt rn stop l mem pc ab]. unfold dtor_inv in *. simpl in *.
  destruct c as [|j b].
  - unfold main_step, main_enqueue, thread_group_ctor_step,
      thread_group_dtor_step, thread_join in Hstep. simpl in Hstep.
    destruct pc; simpl in *; repeat case_match; simplify_eq/=; try done.
    + lia.
    + intros j Hj. rewrite length_insert. intros Hlt.
      destruct (decide (j = k)) as [->|Hne].
      * by apply list_lookup_insert_eq.
      * rewrite list_lookup_insert_ne by done. apply Hinv; lia.
    + intros j Hlt. apply Hinv; [|done].
      match goal with H : _ !! _ = None |- _ => apply lookup_ge_None in H end.
      lia.
  - destruct (mem !! j) as [[wpc| |]|] eqn:Hj; try done.
    assert (forall th,
              match pc with
              | M_tg_dtor k =>
                  forall j0, j0 < k -> j0 < length (<[j := th]> mem) ->
                             <[j := th]> mem !! j0 = Some Joined
              | M_members_dtor =>
                  forall j0, j0 < length (<[j := th]> mem) ->
                             <[j := th]> mem !! j0 = Some Joined
              | _ => True
              end) as Hnew.
    { intros th. apply lookup_lt_Some in Hj as Hlt.
      destruct pc; try done; intros j0; rewrite length_insert; intros.
      - destruct (decide (j0 = j)) as [->|Hne].
        + rewrite Hinv in Hj by done. done.
        + rewrite list_lookup_insert_ne by done. by apply Hinv.
      - destruct (decide (j0 = j)) as [->|Hne].
        + rewrite Hinv in Hj by done. done.
        + rewrite list_lookup_insert_ne by done. by apply Hinv. }
    destruct (worker_step b _ wpc) as [[[[q' n'] l'] th]| |]; simplify_eq/=.
    + by apply Hnew.
    + done.
Qed.

Lemma dtor_inv_reach s0 s : dtor_inv s0 -> hreach cfg s0 s -> dtor_inv s.
Proof. induction 2; eauto using dtor_inv_step. Qed.

(** What the destructor of [tg] does achieve.  When its join loop is over,
    all [num_threads] threads that the constructor started have been
    joined, and this holds from whatever state the destructor is entered.
    A thread exists only while [stop_requested] is alive, so no worker
    outlives the stop flag or the loop iteration that created it. *)
Theorem thread_group_joins_all s :
  hreachable cfg s ->
  (mpc s = M_members_dtor ->
     length (members s) = T /\ Forall (fun th => th = Joined) (members s)) /\
  (members s <> [] -> stop_alive (mpc s) = true) /\
  (forall s0 s1,
     mpc s0 = M_tg_dtor 0 -> hreach cfg s0 s1 -> mpc s1 = M_members_dtor ->
     Forall (fun th => th = Joined) (members s1)).
Proof.
  intros Hre. pose proof (hinv_reachable cfg Hok s Hre) as Hinv.
  pose proof (hi_threads _ _ Hinv) as Hth.
  pose proof (hi_joined _ _ Hinv) as Hj.
  split.
  { intros Hpc. rewrite Hpc in Hth, Hj. simpl in *. split; [done|].
    apply Forall_lookup_2. intros j th Hl.
    apply lookup_lt_Some in Hl as Hlt.
    assert (members s !! j = Some Joined) as Hjo by (apply Hj; lia).
    congruence. }
  split.
  { intros Hne. destruct (mpc s); simpl in *; try done;
      by destruct (members s). }
  intros s0 s1 Hpc0 Hreach Hpc1.
  assert (dtor_inv s1) as Hd.
  { eapply dtor_inv_reach; [|done]. unfold dtor_inv. rewrite Hpc0. lia. }
  unfold dtor_inv in Hd. rewrite Hpc1 in Hd.
  apply Forall_lookup_2. intros j th Hl.
  apply lookup_lt_Some in Hl as Hlt. rewrite Hd in Hl by done. congruence.
Qed.

End HarnessTheorems.

Lemma small_config_ok : cfg_ok small_config.
Proof. split; simpl; lia. Qed.

Lemma repro_config_ok : cfg_ok repro_config.
Proof. split; simpl; lia. Qed.

(** The queue invariants hold in the stress driver too: the store of
    [tasks] never holds more than [capacity] items, 32 in the configured
    scenario, and it is not empty when a worker stands at the assertion of
    line 69. *)
Lemma harness_capacity_bound cfg s :
  cfg_ok cfg -> hreachable cfg s ->
  length (items (tasks s)) <= capacity cfg.
Proof.
  intros Hok Hre. pose proof (hi_space _ _ (hinv_reachable cfg Hok s Hre)). lia.
Qed.

Lemma repro_capacity_bound s :
  hreachable repro_config s -> length (items (tasks s)) <= 32.
Proof. apply (harness_capacity_bound repro_config s repro_config_ok). Qed.

Lemma harness_store_nonempty cfg s j :
  cfg_ok cfg -> hreachable cfg s ->
  members s !! j = Some (Running (W_dequeue D_assert)) ->
  aborted s = false /\ items (tasks s) <> [].
Proof.
  intros Hok Hre Hj. pose proof (hinv_reachable cfg Hok s Hre) as Hinv.
  split; [apply (hi_alive _ _ Hinv)|].
  pose proof (hi_produced _ _ Hinv) as Hp.
  pose proof (sum_lookup_le hw_acquired _ _ _ Hj) as Hle. simpl in Hle.
  intros Hnil. rewrite Hnil in Hp. simpl in Hp. lia.
Qed.

(** The latch does not get what the stop flag gets: [l] is declared after
    [tg] and so destroyed before [tg] is.  With one worker, [main] can stand
    at the join loop, the latch gone, while the worker is still inside
    [l.arrive_and_wait()]. *)
Lemma latch_destroyed_before_join :
  exists s,
    hreachable small_config s /\
    mpc s = M_tg_dtor 0 /\ l_alive (mpc s) = false /\
    members s !! 0 = Some (Running W_wait).
Proof.
  exists (hrun_greedy small_config 47 (hinit small_config)).
  split; [apply hrun_greedy_reach; constructor|].
  vm_compute. done.
Qed.

(** ** A complete run of the configured scenario *)

Lemma hreach_trans cfg s0 s1 s2 :
  hreach cfg s0 s1 -> hreach cfg s1 s2 -> hreach cfg s0 s2.
Proof. induction 2; [done|]. econstructor; eauto. Qed.

Lemma hrun_reach cfg sched s s' : hrun cfg sched s = Some s' -> hreach cfg s s'.
Proof. apply hrun_hreach. constructor. Qed.

Lemma round_begins r c stop :
  (r < 20000)%Z ->
  hreach repro_config (at_round_start r c stop) (at_work r 0 c).
Proof.
  intros Hr.
  eapply hreach_trans with
    (s1 := mkH (queue_init 32) c r stop 0%Z [] M_stop_init false).
  - econstructor; [constructor|]. instantiate (1 := Main).
    unfold hstep, main_step. simpl.
    destruct (Z.ltb_spec r 20000); [done|lia].
  - apply (hrun_reach _ (replicate 10 Main)). reflexivity.
Qed.

Lemma work_item_done r i c :
  (0 <= i < 256)%Z -> (0 <= c)%Z -> (c + 1 < 2 ^ 31)%Z ->
  hreach repro_config (at_work r i c) (at_work r (i + 1) (c + 1)).
Proof.
  intros Hi Hc0 Hc.
  eapply hreach_trans with
    (s1 := mkH (queue_init 32) c r false 0%Z (replicate 8 (Running W_loop))
               (M_work_enqueue i E_acquire) false).
  - econstructor; [constructor|]. instantiate (1 := Main).
    unfold hstep, main_step. simpl.
    destruct (Z.ltb_spec i 256); [done|lia].
  - apply (hrun_reach _ work_schedule).
    rewrite <- (wrap_size_t_small (i + 1)) by lia.
    rewrite <- (wrap_int_small (c + 1)) by lia.
    reflexivity.
Qed.

Lemma work_items_done r (n : nat) i c :
  (0 <= i)%Z -> (i + Z.of_nat n = 256)%Z ->
  (0 <= c)%Z -> (c + Z.of_nat n < 2 ^ 31)%Z ->
  hreach repro_config (at_work r i c) (at_work r 256 (c + Z.of_nat n)).
Proof.
  revert i c. induction n as [|n IH]; intros i c Hi Hn Hc0 Hc.
  - replace i with 256%Z by lia. replace (c + Z.of_nat 0)%Z with c by lia.
    constructor.
  - eapply hreach_trans; [apply (work_item_done r i c); lia|].
    replace (c + Z.of_nat (S n))%Z with (c + 1 + Z.of_nat n)%Z by lia.
    apply IH; lia.
Qed.

Lemma round_ends r c :
  hreach repro_config (at_work r 256 c) (at_round_end r c).
Proof. apply (hrun_reach _ barrier_schedule). reflexivity. Qed.

Lemma round_done r c stop :
  (0 <= r < 20000)%Z -> (0 <= c)%Z -> (c + 256 < 2 ^ 31)%Z ->
  hreach repro_config (at_round_start r c stop)
                      (at_round_start (r + 1) (c + 256) true).
Proof.
  intros Hr Hc0 Hc.
  eapply hreach_trans; [apply round_begins; lia|].
  eapply hreach_trans; [apply (work_items_done r 256 0 c); lia|].
  eapply hreach_trans; [apply round_ends|].
  apply (hrun_reach _ [Main]).
  rewrite <- (wrap_size_t_small (r + 1)) by lia.
  reflexivity.
Qed.

Lemma rounds_done (k : nat) :
  (Z.of_nat k <= 20000)%Z ->
  exists stop,
    hreachable repro_config
      (at_round_start (Z.of_nat k) (Z.of_nat k * 256) stop).
Proof.
  induction k as [|k IH]; intros Hk.
  - exists false. constructor.
  - destruct IH as [stop IH]; [lia|]. exists true.
    eapply hreach_trans; [exact IH|].
    replace (Z.of_nat (S k)) with (Z.of_nat k + 1)%Z by lia.
    replace ((Z.of_nat k + 1) * 256)%Z with (Z.of_nat k * 256 + 256)%Z by lia.
    apply round_done; lia.
Qed.

Theorem repro_completes :
  exists s,
    hreachable repro_config s /\ mpc s = M_exit /\ aborted s = false /\
    count s = 5120000%Z.
Proof.
  destruct (rounds_done (Z.to_nat 20000)) as [stop Hre]; [lia|].
  rewrite Z2Nat.id in Hre by lia.
  exists (mkH (queue_init 32) 5120000%Z 20000%Z stop 0%Z [] M_exit false).
  split; [|done].
  eapply hreach_trans; [exact Hre|].
  apply (hrun_reach _ [Main; Main]). reflexivity.
Qed.

(** No assertion fails.  In every reachable state the completed
    counter, the work tasks held by workers and the work tasks in the store
    add up to the work tasks enqueued so far: none is lost, none runs twice.
    A round starts with [runs * num_enqueues_per_run] executions and ends
    with [num_enqueues_per_run] more; at the final assertion the counter is
    [num_runs * num_enqueues_per_run] and the assertion passes.  In the
    configured scenario that is 5,120,000, and the scenario has a run that
    reaches the end of [main] with that count. *)
Lemma work_count_state cfg s :
  cfg_ok cfg ->
  hreachable cfg s ->
  aborted s = false /\
  (count s + Z.of_nat (sum_list_with (hw_holds tw_work) (members s))
   + Z.of_nat (sum_list_with tw_work (items (tasks s)))
   = runs s * num_enqueues_per_run cfg + pushed_work cfg (mpc s))%Z /\
  (mpc s = M_stop_init -> count s = (runs s * num_enqueues_per_run cfg)%Z) /\
  (mpc s = M_stop_dtor ->
   count s = (runs s * num_enqueues_per_run cfg + num_enqueues_per_run cfg)%Z) /\
  (mpc s = M_final_assert \/ mpc s = M_exit ->
   count s = (num_runs cfg * num_enqueues_per_run cfg)%Z) /\
  (mpc s = M_final_assert -> main_step cfg s = Next (set_mpc s M_exit)) /\
  (cfg = repro_config -> mpc s = M_final_assert \/ mpc s = M_exit ->
   count s = 5120000%Z) /\
  (exists s_end,
     hreachable repro_config s_end /\ mpc s_end = M_exit /\
     aborted s_end = false /\ count s_end = 5120000%Z).
Proof.
  intros Hok Hre. pose proof (hinv_reachable cfg Hok s Hre) as Hinv.
  destruct s as [[its mtx ip rs] cnt rn stop l mem pc ab].
  destruct Hinv as [Ha Hp Hs Hm Hf Hsh Hc0 Hc Hr0 Hr Hth Hwf Hj Hst Hph].
  simpl in *.
  pose proof (hw_sums_bound mem) as (Hb1 & Hb2 & Hb3).
  pose proof (task_count_length its) as Hlen.
  unfold phase_inv in Hph. simpl in Hph.
  assert (pc = M_final_assert \/ pc = M_exit ->
          cnt = (num_runs cfg * num_enqueues_per_run cfg)%Z) as Hfinal.
  { intros [-> | ->]; simpl in *; subst rn; lia. }
  split; [done|]. split; [done|].
  split; [intros ->; simpl in *; lia|].
  split; [intros ->; simpl in *; lia|].
  split; [done|].
  split.
  { intros ->. unfold main_step. simpl.
    rewrite Hfinal by auto. by rewrite Z.eqb_refl. }
  split.
  { intros -> Hpc. by rewrite Hfinal. }
  apply repro_completes.
Qed.

(** ** The theorems at concrete executions *)

Lemma cexec_to_assert : cexec 1 2 trace_to_assert state_to_assert.
Proof. apply (crun_cexec_init 1 2 schedule_to_assert). reflexivity. Qed.

Lemma dequeue_store_nonempty_witness :
  cexec 1 2 trace_to_assert state_to_assert /\
  c_threads state_to_assert !! 1 = Some (InDequeue D_assert) /\
  items (c_queue state_to_assert) <> [].
Proof.
  split; [exact cexec_to_assert|]. split; [reflexivity|].
  apply (dequeue_store_nonempty 1 2 trace_to_assert state_to_assert 1
           cexec_to_assert eq_refl).
Defined.

Lemma capacity_bound_witness :
  cexec 1 2 trace_to_assert state_to_assert /\
  length (items (c_queue state_to_assert)) <= 1.
Proof.
  split; [exact cexec_to_assert|].
  apply (capacity_bound 1 2 trace_to_assert state_to_assert cexec_to_assert).
Defined.

Lemma cexec_to_emplace : cexec 1 2 trace_to_emplace state_to_emplace.
Proof. apply (crun_cexec_init 1 2 schedule_to_emplace). reflexivity. Qed.

Lemma enqueue_steps_in_order_witness :
  cexec 1 2 trace_to_emplace state_to_emplace /\
  c_threads state_to_emplace !! 0 = Some (InEnqueue 7 E_emplace) /\
  items_mtx (c_queue state_to_emplace) = true.
Proof.
  split; [exact cexec_to_emplace|]. split; [reflexivity|].
  destruct (enqueue_steps_in_order 1 2 trace_to_emplace state_to_emplace
              0 7 E_emplace cexec_to_emplace eq_refl)
    as (_ & _ & _ & _ & _ & _ & Hlock).
  apply Hlock. by left.
Defined.

Lemma dequeue_timeout_returns_empty_witness :
  c_aborted state_at_try = false /\
  c_threads state_at_try !! 0 = Some (InDequeue D_try) /\
  try_dequeue_for true (c_queue state_at_try) = Next (None, c_queue state_at_try).
Proof.
  split; [reflexivity|]. split; [reflexivity|].
  destruct (dequeue_timeout_returns_empty state_at_try 0 (hinit small_config)
              eq_refl eq_refl) as (_ & _ & _ & Hret & _).
  exact Hret.
Defined.

Lemma dequeue_timeout_no_effect_witness :
  let s' := mkC (queue_init 1) [InDequeue (D_ret None)] false in
  cstep 0 (AStep true) state_at_try
    = Some ((0, CEv (EvTryAcquireProduced false)), s') /\
  c_queue s' = c_queue state_at_try.
Proof.
  intros s'. split; [reflexivity|].
  apply (dequeue_timeout_no_effect state_at_try 0 true s' eq_refl).
Defined.

Lemma cexec_two_items : cexec 2 2 trace_two_items state_two_items.
Proof. apply (crun_cexec_init 2 2 schedule_two_items). reflexivity. Qed.


Lemma small_run_reachable fuel : hreachable small_config (small_run fuel).
Proof. apply hrun_greedy_reach. constructor. Qed.

Lemma round_isolation_witness :
  hreachable small_config (small_run 52) /\
  mpc (small_run 52) = M_stop_dtor /\
  tasks (small_run 52) = queue_init 1 /\ members (small_run 52) = [].
Proof.
  split; [apply small_run_reachable|].
  split; [vm_compute; reflexivity|].
  destruct (round_isolation small_config small_config_ok (small_run 52)
              (small_run_reachable 52)) as (_ & Hend & _).
  apply Hend. right. vm_compute. reflexivity.
Defined.

Lemma thread_group_joins_all_witness :
  hreachable small_config (small_run 51) /\
  mpc (small_run 51) = M_members_dtor /\
  Forall (fun th => th = Joined) (members (small_run 51)).
Proof.
  split; [apply small_run_reachable|].
  split; [vm_compute; reflexivity|].
  destruct (thread_group_joins_all small_config small_config_ok (small_run 51)
              (small_run_reachable 51)) as (Hjoin & _).
  apply Hjoin. vm_compute. reflexivity.
Defined.

(** * Further properties of the code *)

(** ** One thread using the queue on its own *)

Section SequentialQueue.

Context {T : Type}.
Implicit Types (q : queue T) (x : T) (xs : list T).

(** X1.  What one call of [try_dequeue_for] does when no other thread moves
    during it.  If the timed acquire gives up, the call returns nothing and
    the queue is untouched.  Otherwise it waits while [items_produced] has
    no unit or the mutex is taken; with a unit and a free mutex it aborts on
    the assertion of line 69 if the store is empty, and else returns the
    head of the store, leaving the rest of the store, a free mutex, one unit
    less of [items_produced] and one more of [remaining_space]. *)
Theorem try_dequeue_for_outcome (timed_out : bool) q :
  try_dequeue_for timed_out q =
  if timed_out then Next (None, q)
  else match items_produced q with
       | O => Blocked
       | S p =>
           if items_mtx q then Blocked
           else match items q with
                | [] => Fatal
                | h :: rest =>
                    Next (Some h,
                          mkQueue rest false p (S (remaining_space q)))
                end
       end.
Proof.
  destruct q as [its mtx ip rs].
  destruct timed_out; [reflexivity|].
  destruct ip; [reflexivity|]. destruct mtx; [reflexivity|].
  destruct its; reflexivity.
Qed.

Lemma try_dequeue_for_head h (rest : list T) ip rs :
  try_dequeue_for false (mkQueue (h :: rest) false (S ip) rs) =
  Next (Some h, mkQueue rest false ip (S rs)).
Proof. reflexivity. Qed.

Lemma enqueue_outcome x q :
  enqueue x q =
  match remaining_space q with
  | O => Blocked
  | S c =>
      if items_mtx q then Blocked
      else Next (mkQueue (items q ++ [x]) false (S (items_produced q)) c)
  end.
Proof.
  destruct q as [its mtx ip rs].
  destruct rs; [reflexivity|]. destruct mtx; reflexivity.
Qed.

Lemma enqueue_all_outcome xs q :
  items_mtx q = false ->
  enqueue_all xs q =
  if decide (length xs <= remaining_space q)
  then Next (mkQueue (items q ++ xs) false (items_produced q + length xs)
                     (remaining_space q - length xs))
  else Blocked.
Proof.
  revert q. induction xs as [|x xs IH]; intros [its mtx ip rs] Hm;
    cbn [items_mtx] in Hm; subst mtx; cbn [enqueue_all].
  - case_decide; [|cbn in *; lia]. cbn.
    by rewrite app_nil_r, Nat.add_0_r, Nat.sub_0_r.
  - rewrite enqueue_outcome. cbn [remaining_space items_mtx items items_produced].
    destruct rs as [|rs].
    + case_decide; [cbn in *; lia|done].
    + rewrite IH by done.
      cbn [remaining_space items_mtx items items_produced].
      repeat case_decide; cbn [length] in *; try lia; [|done].
      rewrite <- app_assoc. cbn. f_equal. f_equal. lia.
Qed.

Lemma dequeue_n_outcome n q :
  items_mtx q = false -> n <= items_produced q -> n <= length (items q) ->
  dequeue_n n q =
  Next (take n (items q),
        mkQueue (drop n (items q)) false (items_produced q - n)
                (remaining_space q + n)).
Proof.
  revert q. induction n as [|n IH]; intros [its mtx ip rs] Hm Hip Hlen;
    simpl in *; subst mtx.
  - by rewrite Nat.sub_0_r, Nat.add_0_r, drop_0.
  - destruct ip as [|ip]; [lia|]. destruct its as [|h rest]; [simpl in *; lia|].
    rewrite try_dequeue_for_head.
    rewrite IH by (simpl in *; lia). simpl.
    do 3 f_equal. lia.
Qed.

(** X2.  Round trip.  A thread that enqueues the items [xs] into a fresh
    queue of capacity [N] gets through exactly when [xs] has at most [N]
    items; the store then holds [xs] in order, and as many calls of
    [try_dequeue_for] return [xs] in the same order and leave the queue as
    it was constructed.  With more than [N] items the thread waits for ever
    in [remaining_space.acquire()]. *)
Theorem enqueue_dequeue_round_trip (N : nat) xs :
  (length xs <= N ->
   exists q, enqueue_all xs (queue_init N) = Next q /\
             items q = xs /\
             dequeue_n (length xs) q = Next (xs, queue_init N)) /\
  (N < length xs -> enqueue_all xs (queue_init N) = Blocked).
Proof.
  split; intros Hlen.
  - eexists. rewrite enqueue_all_outcome by done.
    cbn [queue_init remaining_space items items_produced].
    rewrite decide_True by done. split; [reflexivity|]. split; [done|].
    rewrite dequeue_n_outcome by (cbn; lia). cbn.
    rewrite firstn_all, drop_all. unfold queue_init.
    replace (length xs - length xs) with 0 by lia.
    replace (N - length xs + length xs) with N by lia. done.
  - rewrite enqueue_all_outcome by done.
    cbn [queue_init remaining_space]. by rewrite decide_False by lia.
Qed.

End SequentialQueue.

Lemma enqueue_dequeue_round_trip_witness :
  length [1; 2; 3] <= 3 /\
  exists q, enqueue_all [1; 2; 3] (queue_init 3) = Next q /\
            items q = [1; 2; 3] /\
            dequeue_n 3 q = Next ([1; 2; 3], queue_init 3).
Proof.
  split; [simpl; lia|].
  destruct (enqueue_dequeue_round_trip 3 [1; 2; 3]) as [Hfits _].
  apply Hfits. simpl. lia.
Defined.

(** ** The queue under arbitrary clients, continued *)

Lemma sum_pos_lookup {A : Type} (f : A -> nat) (l : list A) :
  0 < sum_list_with f l -> exists i x, l !! i = Some x /\ 0 < f x.
Proof.
  induction l as [|a l IH]; simpl; [lia|]. intros H.
  destruct (decide (0 < f a)).
  - exists 0, a. done.
  - destruct IH as (i & x & Hi & Hx); [lia|]. exists (S i), x. done.
Qed.

Lemma sum_short_lookup {A : Type} (f : A -> nat) (l : list A) :
  sum_list_with f l < length l -> exists i x, l !! i = Some x /\ f x = 0.
Proof.
  induction l as [|a l IH]; simpl; [lia|]. intros H.
  destruct (decide (f a = 0)).
  - exists 0, a. done.
  - destruct IH as (i & x & Hi & Hx); [lia|]. exists (S i), x. done.
Qed.

Lemma flat_map_insert {A B : Type} (f : A -> list B) (l : list A) i x y :
  l !! i = Some x ->
  flat_map f (<[i := y]> l) ++ f x ≡ₚ flat_map f l ++ f y.
Proof.
  revert i. induction l as [|a l IH]; intros [|i] Hi; simplify_eq/=.
  - rewrite <- !app_assoc. rewrite (Permutation_app_comm (flat_map f l) (f x)).
    rewrite (Permutation_app_comm (flat_map f l) (f y)).
    rewrite !app_assoc. apply Permutation_app_tail. apply Permutation_app_comm.
  - rewrite <- !app_assoc. apply Permutation_app_head. by apply IH.
Qed.

Lemma flat_map_insert_same {A B : Type} (f : A -> list B) (l : list A) i x y :
  l !! i = Some x -> f x = f y -> flat_map f (<[i := y]> l) = flat_map f l.
Proof.
  revert i. induction l as [|a l IH]; intros [|i] Hi Hf; simplify_eq/=.
  - by rewrite Hf.
  - f_equal. by apply IH.
Qed.

Lemma returned_app {T : Type} (tr1 tr2 : list (nat * @cevent T)) :
  returned (tr1 ++ tr2) = returned tr1 ++ returned tr2.
Proof.
  induction tr1 as [|[t [| | | |[]|]] tr1 IH]; simpl; by rewrite ?IH.
Qed.

Section ClientConservation.

Context {T : Type}.
Variable N : nat.

Local Abbreviation cstate := (@cstate T).

(** X3.  Mutual exclusion.  In every reachable state at most one thread is
    inside a block guarded by [items_mtx] (lines 49-50 and 68-72), and the
    mutex is locked exactly when some thread is. *)
Theorem mutual_exclusion n tr (s : cstate) :
  cexec N n tr s ->
  (forall t1 t2 pc1 pc2,
     t1 <> t2 ->
     c_threads s !! t1 = Some pc1 -> c_threads s !! t2 = Some pc2 ->
     cw_critical pc1 = 1 -> cw_critical pc2 = 0) /\
  (items_mtx (c_queue s) = true <->
   exists t pc, c_threads s !! t = Some pc /\ cw_critical pc = 1).
Proof.
  intros Hex. pose proof (cexec_cinv _ _ _ _ Hex) as [Ha Hp Hs Hm].
  split.
  - intros t1 t2 pc1 pc2 Hne H1 H2 Hc.
    eapply (sum_exclusive cw_critical _ t1 t2); eauto; [|lia].
    rewrite Hm. destruct (items_mtx _); simpl; lia.
  - split.
    + intros Hmtx. rewrite Hmtx in Hm. simpl in Hm.
      destruct (sum_pos_lookup cw_critical (c_threads s)) as (t & pc & Ht & Hpc);
        [lia|].
      exists t, pc. split; [done|].
      destruct pc as [|x []|[]]; simpl in *; lia.
    + intros (t & pc & Ht & Hpc).
      pose proof (sum_lookup_le cw_critical _ _ _ Ht).
      destruct (items_mtx _); [done|]. simpl in *. lia.
Qed.

(** X4.  Neither semaphore ever counts more than [N], the maximum declared
    on lines 37 and 38, and a release never pushes one beyond it: whenever a
    thread is about to release [items_produced] (line 52) or
    [remaining_space] (line 74), that semaphore counts less than [N]. *)
Theorem semaphores_within_max n tr (s : cstate) :
  cexec N n tr s ->
  items_produced (c_queue s) <= N /\ remaining_space (c_queue s) <= N /\
  (forall t x, c_threads s !! t = Some (InEnqueue x E_release) ->
               items_produced (c_queue s) < N) /\
  (forall t tmp, c_threads s !! t = Some (InDequeue (D_release tmp)) ->
                 remaining_space (c_queue s) < N).
Proof.
  intros Hex. pose proof (cexec_cinv _ _ _ _ Hex) as [Ha Hp Hs Hm].
  repeat split; try lia.
  - intros t x Ht. pose proof (sum_lookup_le cw_pushed _ _ _ Ht).
    simpl in *. lia.
  - intros t tmp Ht. pose proof (sum_lookup_le cw_popped _ _ _ Ht).
    simpl in *. lia.
Qed.

(** The item a consumer read with [front()] is still the head of the store
    when it calls [pop()]. *)
Lemma cexec_front n tr (s : cstate) :
  cexec N n tr s ->
  forall t tmp, c_threads s !! t = Some (InDequeue (D_pop tmp)) ->
                head (items (c_queue s)) = Some tmp.
Proof.
  induction 1 as [|tr s t a e s' Hex IH Hstep]; intros t0 tmp Ht0.
  - apply lookup_replicate in Ht0 as [? _]. done.
  - pose proof (cexec_cinv _ _ _ _ Hex) as [_ _ _ Hm]. clear Hex.
    destruct s as [[its mtx ip rs] ths ab].
    cstep_cases Hstep; simpl in *.
    all: try (exact (IH _ _ Ht0)).
    all: destruct (decide (t0 = t)) as [->|Hne];
      [rewrite list_lookup_insert_eq in Ht0
         by (eapply lookup_lt_Some; eassumption);
       by simplify_eq
      |rewrite list_lookup_insert_ne in Ht0 by done].
    all: try (eapply IH; eassumption).
    + specialize (IH _ _ Ht0). by destruct its.
    + exfalso.
      match goal with H : ths !! t = Some _ |- _ =>
        pose proof (sum_lookup2_le cw_critical ths t t0 _ _
                      ltac:(congruence) H Ht0) as Hx end.
      simpl in Hx. unfold mtx_count in Hm. destruct mtx; simpl in *; lia.
Qed.

(** X5.  Conservation.  Up to order, the items inserted so far are the items
    that calls of [try_dequeue_for] have returned, the items that dequeuing
    threads have removed and not yet returned, and the items in the store:
    no item is lost, none is returned twice, none is made up.  In
    particular the value a call returns is the one it removed. *)
Theorem items_conserved n tr (s : cstate) :
  cexec N n tr s ->
  pushes tr ≡ₚ
    returned tr ++ flat_map c_holds (c_threads s) ++ items (c_queue s).
Proof.
  intros Hex. rewrite (pushes_pops_items N n tr s Hex).
  rewrite (app_assoc (returned tr)). apply Permutation_app_tail.
  induction Hex as [|tr s t a e s' Hex IH Hstep].
  - simpl. generalize n. clear. intros n. by induction n.
  - pose proof (cexec_front _ _ _ Hex) as Hfront.
    rewrite pops_app, returned_app, IH. clear IH Hex.
    destruct s as [[its mtx ip rs] ths ab].
    cstep_cases Hstep; simpl in *; rewrite ?app_nil_r.
    all: try (erewrite flat_map_insert_same by (eassumption || done)).
    all: try reflexivity.
    + (* pop() removes the item read by front() *)
      match goal with H : ths !! t = Some _ |- _ =>
        pose proof (Hfront _ _ H) as Hh;
        pose proof (flat_map_insert c_holds ths t _
                      (InDequeue (D_unlock tmp)) H) as Hp end.
      simpl in Hh, Hp. simplify_eq. rewrite app_nil_r in Hp.
      rewrite Hp. by rewrite app_assoc.
    + (* the call returns the item it holds *)
      match goal with H : ths !! t = Some _ |- _ =>
        pose proof (flat_map_insert c_holds ths t _ Idle H) as Hp end.
      simpl in Hp. rewrite app_nil_r in Hp. rewrite <- Hp.
      rewrite <- !app_assoc. apply Permutation_app_head.
      destruct r; simpl; [|by rewrite app_nil_r].
      apply Permutation_app_comm.
Qed.

End ClientConservation.

Lemma mutual_exclusion_witness :
  cexec 1 2 trace_to_assert state_to_assert /\
  c_threads state_to_assert !! 1 = Some (InDequeue D_assert) /\
  items_mtx (c_queue state_to_assert) = true.
Proof.
  split; [exact cexec_to_assert|]. split; [reflexivity|].
  destruct (mutual_exclusion 1 2 trace_to_assert state_to_assert
              cexec_to_assert) as [_ [_ Hlocked]].
  apply Hlocked. exists 1, (InDequeue D_assert). split; reflexivity.
Defined.

Lemma semaphores_within_max_witness :
  cexec 1 2 trace_to_assert state_to_assert /\
  items_produced (c_queue state_to_assert) <= 1 /\
  remaining_space (c_queue state_to_assert) <= 1.
Proof.
  split; [exact cexec_to_assert|].
  destruct (semaphores_within_max 1 2 trace_to_assert state_to_assert
              cexec_to_assert) as (Hp & Hs & _).
  split; [exact Hp|exact Hs].
Defined.

Lemma items_conserved_witness :
  cexec 2 2 trace_two_items state_two_items /\
  pushes trace_two_items ≡ₚ
    returned trace_two_items
    ++ flat_map c_holds (c_threads state_two_items)
    ++ items (c_queue state_two_items).
Proof.
  split; [exact cexec_two_items|].
  apply (items_conserved 2 2 trace_two_items state_two_items cexec_two_items).
Defined.

(** ** [thread_group] on its own *)

Section ThreadGroupCtor.

Context {A : Type}.
Variable env : ctor_env.
Implicit Types (members : list (thread A)) (f : A).

Lemma thread_group_ctor_from_all fuel count f i members :
  i <= count -> count - i < fuel ->
  (forall i', i <= i' < count -> spawn_ok env i' = true) ->
  thread_group_ctor_from env fuel count f i members =
  Constructed (members ++ replicate (count - i) (Running f)).
Proof.
  revert i members. induction fuel as [|fuel IH]; intros i members Hi Hf Hs;
    [lia|].
  cbn [thread_group_ctor_from]. unfold thread_group_ctor_step.
  destruct (Nat.ltb_spec i count) as [Hlt|Hge].
  - rewrite Hs by lia. rewrite IH; [|lia|lia|intros; apply Hs; lia].
    rewrite <- app_assoc. do 2 f_equal.
    replace (count - i) with (S (count - S i)) by lia. done.
  - replace (count - i) with 0 by lia. by rewrite app_nil_r.
Qed.

Lemma thread_group_ctor_from_fails fuel count f i k members :
  i <= k -> k < count -> count - i < fuel ->
  (forall i', i <= i' < k -> spawn_ok env i' = true) ->
  spawn_ok env k = false ->
  thread_group_ctor_from env fuel count f i members =
  match members ++ replicate (k - i) (Running f) with
  | [] => Throws SystemError
  | _ :: _ => Terminates
  end.
Proof.
  revert i members. induction fuel as [|fuel IH];
    intros i members Hi Hk Hf Hs Hfail; [lia|].
  cbn [thread_group_ctor_from]. unfold thread_group_ctor_step.
  destruct (Nat.ltb_spec i count) as [Hlt|Hge]; [|lia].
  destruct (decide (i = k)) as [->|Hne].
  - rewrite Hfail. rewrite Nat.sub_diag. simpl. by rewrite app_nil_r.
  - rewrite Hs by lia. rewrite IH; [|lia|lia|lia|intros; apply Hs; lia|done].
    rewrite <- app_assoc.
    replace (k - i) with (S (k - S i)) by lia. done.
Qed.

(** X6.  The constructor on a [count] that [std::size_t] holds.  If [count]
    exceeds what the vector can hold, [members.reserve(count)] throws
    [std::length_error]; if the allocation fails it throws [std::bad_alloc];
    in both cases no thread has been started.  If the reservation succeeds
    and every thread can be started, the constructor returns with exactly
    [count] threads, each running the callable [f].  If thread [k] is the
    first that cannot be started, [std::system_error] leaves the
    constructor: with [k = 0] nothing was started, and with [k > 0] the
    destruction of [members], which holds [k] joinable threads, calls
    [std::terminate]. *)
Theorem thread_group_ctor_starts_all count f :
  (Z.of_nat count < 2 ^ 64)%Z ->
  (vector_max_size env < count ->
     thread_group_ctor env count f = Throws LengthError) /\
  (0 < count <= vector_max_size env -> alloc_ok env count = false ->
     thread_group_ctor env count f = Throws BadAlloc) /\
  (vector_reserve env count = None ->
     (forall i, i < count -> spawn_ok env i = true) ->
     thread_group_ctor env count f = Constructed (replicate count (Running f))) /\
  (vector_reserve env count = None ->
     forall k, k < count ->
       (forall i, i < k -> spawn_ok env i = true) -> spawn_ok env k = false ->
       thread_group_ctor env count f =
       if decide (k = 0) then Throws SystemError else Terminates).
Proof.
  intros _. unfold thread_group_ctor, vector_reserve.
  split.
  { intros Hlt. destruct (Nat.ltb_spec (vector_max_size env) count); [done|lia]. }
  split.
  { intros [H0 Hle] Ha.
    destruct (Nat.ltb_spec (vector_max_size env) count); [lia|].
    destruct (Nat.ltb_spec 0 count); [|lia]. by rewrite Ha. }
  split.
  { intros -> Hs. rewrite thread_group_ctor_from_all; [|lia|lia|intros; apply Hs; lia].
    by rewrite Nat.sub_0_r. }
  intros -> k Hk Hs Hfail.
  rewrite (thread_group_ctor_from_fails _ count f 0 k);
    [|lia|lia|lia|intros; apply Hs; lia|done].
  rewrite Nat.sub_0_r. simpl.
  destruct k; simpl; [done|]. done.
Qed.

End ThreadGroupCtor.

Lemma thread_group_ctor_starts_all_witness :
  thread_group_ctor ample_env 8 W_loop = Constructed (replicate 8 (Running W_loop)) /\
  thread_group_ctor scarce_env 2000 W_loop = Throws LengthError /\
  thread_group_ctor scarce_env SIZE_MAX W_loop = Throws LengthError /\
  thread_group_ctor scarce_env 500 W_loop = Throws BadAlloc /\
  thread_group_ctor scarce_env 8 W_loop = Terminates.
Proof.
  assert (Z.of_nat 8 < 2 ^ 64)%Z as H8 by (vm_compute; reflexivity).
  assert (Z.of_nat 500 < 2 ^ 64)%Z as H500 by (vm_compute; reflexivity).
  assert (Z.of_nat 2000 < 2 ^ 64)%Z as H2000 by (vm_compute; reflexivity).
  split.
  { destruct (thread_group_ctor_starts_all ample_env 8 W_loop H8)
      as (_ & _ & Hall & _).
    apply Hall; [reflexivity|]. intros i Hi. reflexivity. }
  split.
  { destruct (thread_group_ctor_starts_all scarce_env 2000 W_loop H2000)
      as (Hlen & _).
    apply Hlen. simpl. lia. }
  split.
  { assert (Z.of_nat SIZE_MAX < 2 ^ 64)%Z as Hmax by (unfold SIZE_MAX; lia).
    destruct (thread_group_ctor_starts_all scarce_env SIZE_MAX W_loop Hmax)
      as (Hlen & _).
    apply Hlen. unfold SIZE_MAX. cbn [vector_max_size scarce_env]. lia. }
  split.
  { destruct (thread_group_ctor_starts_all scarce_env 500 W_loop H500)
      as (_ & Hbad & _).
    apply Hbad; [simpl; lia|reflexivity]. }
  destruct (thread_group_ctor_starts_all scarce_env 8 W_loop H8)
    as (_ & _ & _ & Hfail).
  apply (Hfail eq_refl 2); [lia| |reflexivity].
  intros i Hi. destruct i as [|[|i]]; [reflexivity|reflexivity|lia].
Defined.

Section ThreadGroupProofs.

Context {A : Type}.
Implicit Types (members : list (thread A)) (f : A).

Lemma thread_group_dtor_from_joined fuel k members :
  k <= length members -> length members - k < fuel ->
  Forall (fun t => t = Finished) (drop k members) ->
  thread_group_dtor_from fuel k members =
  Next (take k members ++ replicate (length members - k) Joined).
Proof.
  revert k members. induction fuel as [|fuel IH]; intros k members Hk Hf Hall;
    [lia|].
  cbn [thread_group_dtor_from]. unfold thread_group_dtor_step.
  destruct (members !! k) as [t|] eqn:Hl.
  - apply lookup_lt_Some in Hl as Hlt.
    assert (t = Finished) as ->.
    { rewrite Forall_lookup in Hall. apply (Hall 0).
      rewrite lookup_drop. by rewrite Nat.add_0_r. }
    simpl. rewrite IH.
    + rewrite length_insert. f_equal.
      replace (length members - k) with (S (length members - S k)) by lia.
      rewrite (take_S_r _ _ Joined) by (rewrite list_lookup_insert_eq; done).
      rewrite take_insert_ge by lia.
      by rewrite <- app_assoc.
    + rewrite length_insert. lia.
    + rewrite length_insert. lia.
    + rewrite drop_insert_lt by lia.
      rewrite (drop_S _ _ _ Hl) in Hall. by inversion Hall.
  - apply lookup_ge_None in Hl.
    replace (length members - k) with 0 by lia.
    rewrite take_ge by lia. by rewrite app_nil_r.
Qed.

Lemma thread_group_dtor_from_stuck fuel k j members t :
  k <= j -> j - k < fuel ->
  members !! j = Some t -> t <> Finished ->
  (forall i t', k <= i < j -> members !! i = Some t' -> t' = Finished) ->
  thread_group_dtor_from fuel k members =
  match t with Running _ => Blocked | _ => Fatal end.
Proof.
  revert k members. induction fuel as [|fuel IH]; intros k members Hk Hf Hj Ht Hall;
    [lia|].
  cbn [thread_group_dtor_from]. unfold thread_group_dtor_step.
  destruct (decide (k = j)) as [->|Hne].
  - rewrite Hj. by destruct t.
  - destruct (members !! k) as [t'|] eqn:Hl.
    + rewrite (Hall k t') by (done || lia). simpl.
      apply IH; try lia.
      * rewrite list_lookup_insert_ne by lia. done.
      * done.
      * intros i t'' Hi Hl'. rewrite list_lookup_insert_ne in Hl' by lia.
        apply (Hall i); [lia|done].
    + apply lookup_ge_None in Hl. apply lookup_lt_Some in Hj. lia.
Qed.

(** X7.  The destructor run while no thread moves.  If every thread of the
    group has returned from its callable, the destructor joins them all and
    returns.  Otherwise it joins the threads before the first one that has
    not returned and stops there: it waits in [join()] if that thread is
    still running, and [join()] throws if that thread was joined before. *)
Theorem thread_group_dtor_outcome members :
  (Forall (fun t => t = Finished) members ->
   thread_group_dtor members = Next (replicate (length members) Joined)) /\
  (forall j t, members !! j = Some t -> t <> Finished ->
     Forall (fun t' => t' = Finished) (take j members) ->
     thread_group_dtor members =
     match t with Running _ => Blocked | _ => Fatal end).
Proof.
  unfold thread_group_dtor. split.
  - intros Hall. rewrite thread_group_dtor_from_joined; [|lia|lia|done].
    by rewrite Nat.sub_0_r.
  - intros j t Hj Ht Hall.
    apply (thread_group_dtor_from_stuck _ 0 j); try done; try lia.
    + apply lookup_lt_Some in Hj. lia.
    + intros i t' Hi Hl. rewrite Forall_lookup in Hall. apply (Hall i).
      rewrite lookup_take_lt by lia. done.
Qed.

End ThreadGroupProofs.

Lemma thread_group_dtor_outcome_witness :
  thread_group_dtor (A := nat) [Finished; Finished] = Next [Joined; Joined] /\
  thread_group_dtor [Finished; Running 0; Finished] = Blocked.
Proof.
  split.
  - destruct (thread_group_dtor_outcome (A := nat) [Finished; Finished])
      as [Hall _].
    apply Hall. repeat constructor.
  - destruct (thread_group_dtor_outcome [Finished; Running 0; Finished])
      as [_ Hstuck].
    apply (Hstuck 1 (Running 0)); [reflexivity|discriminate|].
    repeat constructor.
Defined.

(** ** The stress driver, continued *)

Ltac main_step_cases Hstep :=
  unfold main_step, main_enqueue, thread_group_ctor_step,
    thread_group_dtor_step, thread_join, latch_try_wait, latch_count_down,
    enqueue_step, sem_acquire, sem_release in Hstep;
  simpl in Hstep;
  repeat match type of Hstep with
    | context [(?a <? ?b)%Z] => destruct (Z.ltb_spec a b); simpl in Hstep
    | context [(?a =? ?b)%Z] => destruct (Z.eqb_spec a b); simpl in Hstep
    | context [?a <? ?b] => destruct (Nat.ltb_spec a b); simpl in Hstep
    | context [match ?x with _ => _ end] =>
        is_var x; destruct x; simpl in Hstep
    | context [if ?x then _ else _] =>
        is_var x; destruct x; simpl in Hstep
    | context [match ?l !! ?k with _ => _ end] =>
        destruct (l !! k) as [[]|] eqn:?; simpl in Hstep
    end;
  simplify_eq/=.

Ltac worker_step_cases Hstep :=
  unfold worker_step, latch_try_wait, latch_count_down in Hstep;
  simpl in Hstep;
  unfold sem_try_acquire_for, sem_release in Hstep;
  repeat match type of Hstep with
    | context [(?a =? ?b)%Z] => destruct (Z.eqb_spec a b); simpl in Hstep
    | context [match ?x with _ => _ end] =>
        is_var x; destruct x; simpl in Hstep
    | context [if ?x then _ else _] =>
        is_var x; destruct x; simpl in Hstep
    end;
  simplify_eq/=.

Lemma hw_popped_busy th :
  0 < hw_popped th ->
  exists pc, th = Running pc /\ pc <> W_wait /\ pc <> W_dequeue D_try.
Proof. destruct th as [[|[]| |]| |]; simpl; intros; try lia; eauto. Qed.

Lemma hw_acquired_busy th :
  0 < hw_acquired th ->
  exists pc, th = Running pc /\ pc <> W_wait /\ pc <> W_dequeue D_try.
Proof. destruct th as [[|[]| |]| |]; simpl; intros; try lia; eauto. Qed.

Lemma hw_holds_busy k th :
  0 < hw_holds k th ->
  exists pc, th = Running pc /\ pc <> W_wait /\ pc <> W_dequeue D_try.
Proof.
  destruct th as [[|[| | | | | | | |[]]| |]| |]; simpl; intros; try lia; eauto.
Qed.

Lemma weight_worker (w : thread worker_pc -> nat) (m : list (thread worker_pc)) :
  (forall th, 0 < w th ->
     exists pc, th = Running pc /\ pc <> W_wait /\ pc <> W_dequeue D_try) ->
  0 < sum_list_with w m ->
  exists j pc, m !! j = Some (Running pc) /\ pc <> W_wait /\
               pc <> W_dequeue D_try.
Proof.
  intros Hw Hpos.
  destruct (sum_pos_lookup w m Hpos) as (j & th & Hl & Hth).
  destruct (Hw th Hth) as (pc & -> & ? & ?). eauto.
Qed.

Section DriverProgress.

Variable cfg : config.
Hypothesis Hok : cfg_ok cfg.

Local Abbreviation R := (num_runs cfg).
Local Abbreviation E := (num_enqueues_per_run cfg).
Local Abbreviation T := (num_threads cfg).

Lemma stop_inv_step c s s' :
  hinv cfg s -> stop_inv s -> hstep cfg c s = Some s' -> stop_inv s'.
Proof.
  intros Hinv HK Hstep. unfold hstep in Hstep.
  rewrite (hi_alive _ _ Hinv) in Hstep.
  destruct c as [|j timed_out].
  - destruct (main_step cfg s) as [s1| |] eqn:Hm; simplify_eq;
      [|by apply hinv_main_not_fatal in Hm].
    pose proof (hi_threads _ _ Hinv) as Hth.
    pose proof (hi_stop _ _ Hinv) as Hst.
    destruct s as [[its mtx ip rs] cnt rn stop l mem pc ab].
    unfold stop_inv in *. simpl in *.
    destruct pc as [| |i|i|i []| |i|i []| | | | |k| | | |];
      main_step_cases Hm; simpl in *.
    all: try (destruct mem; [|done]; intros ? ? ?; by simplify_list_eq).
    all: try (intros j th Hl; destruct (HK j th Hl) as [?|[? ?]]; by eauto).
    + intros j th Hl. apply lookup_app_Some in Hl as [Hl|[_ Hl]].
      * destruct (HK j th Hl) as [?|[? ?]]; eauto.
      * destruct (j - length mem) as [|[]]; simplify_eq/=. eauto.
    + intros j th Hl. right. split; [|done]. by apply Hst.
  - destruct (members s !! j) as [[pc| |]|] eqn:Hj; simplify_eq.
    destruct (worker_step timed_out s pc) as [[[[q n] l] th]| |] eqn:Hw;
      simplify_eq; [|by eapply hinv_worker_not_fatal in Hw].
    pose proof (hi_threads _ _ Hinv) as Hth.
    pose proof (hi_stop _ _ Hinv) as Hst.
    destruct s as [[its mtx ip rs] cnt rn stop l0 mem mp ab].
    unfold stop_inv in *. simpl in *.
    intros j0 th0 Hl. destruct (decide (j0 = j)) as [->|Hne].
    + rewrite list_lookup_insert_eq in Hl by (by eapply lookup_lt_Some).
      simplify_eq.
      destruct pc as [|[| | | | |tmp|tmp|tmp|[f|]]|[]|];
        worker_step_cases Hw; eauto.
      right. split; [done|].
      apply lookup_lt_Some in Hj. rewrite Hth in Hj.
      destruct mp; simpl in *; try done; lia.
    + rewrite list_lookup_insert_ne in Hl by done. eauto.
Qed.

Lemma stop_inv_reachable s : hreachable cfg s -> stop_inv s.
Proof.
  induction 1 as [|s c s' Hre IH Hstep].
  - intros j th Hl. done.
  - eapply stop_inv_step; eauto using hinv_reachable.
Qed.

(** Whoever holds [items_mtx] can move. *)
Lemma holder_can_step s :
  hinv cfg s -> items_mtx (tasks s) = true ->
  exists c s', hstep cfg c s = Some s' /\ no_timeout c.
Proof.
  intros Hinv Hmtx.
  pose proof (hi_alive _ _ Hinv) as Ha.
  pose proof (hi_mutex _ _ Hinv) as Hm.
  rewrite Hmtx in Hm. simpl in Hm.
  destruct (decide (m_enq e_critical (mpc s) = 0)) as [Hz|Hnz].
  - destruct (sum_pos_lookup hw_critical (members s)) as (j' & th & Hl & Hc);
      [lia|].
    exists (Worker j' false). unfold hstep. rewrite Ha, Hl.
    destruct th as [[|[]| |]| |]; simpl in Hc; try lia; simpl;
      repeat case_match; by eauto.
  - exists Main. unfold hstep, main_step, main_enqueue. rewrite Ha.
    destruct (mpc s) as [| |?|?|? []| |?|? []| | | | |?| | | |];
      simpl in *; try done; by eauto.
Qed.

(** A running worker that is not held back by the latch can move, or the
    holder of the mutex can; a timeout is needed only at a timed acquire
    that finds no unit. *)
Lemma worker_can_step s j pc :
  hinv cfg s -> members s !! j = Some (Running pc) ->
  (pc = W_wait -> l_counter s = 0%Z) ->
  exists c s', hstep cfg c s = Some s' /\
    (pc <> W_dequeue D_try \/ 0 < items_produced (tasks s) -> no_timeout c).
Proof.
  intros Hinv Hj Hw.
  pose proof (hi_alive _ _ Hinv) as Ha.
  destruct (items_mtx (tasks s)) eqn:Hmtx.
  - destruct (holder_can_step s Hinv Hmtx) as (c & s' & ? & ?). eauto.
  - assert ((exists c s', hstep cfg c s = Some s' /\ no_timeout c) \/
            (pc = W_dequeue D_try /\ items_produced (tasks s) = 0)) as [H|[-> Hz]].
    { destruct pc as [|[| | | | |tmp|tmp|tmp|[f|]]|[]|].
      2: { destruct (items_produced (tasks s)) eqn:Hip; [by right|].
           left. exists (Worker j false). unfold hstep. rewrite Ha, Hj.
           simpl. rewrite Hip. simpl. by eauto. }
      all: left; exists (Worker j false); unfold hstep; rewrite Ha, Hj; simpl;
        unfold latch_try_wait; rewrite ?Hmtx, ?Hw by done; simpl;
        repeat case_match; by eauto. }
    + destruct H as (c & s' & Hs & Hn). eauto.
    + exists (Worker j true). unfold hstep. rewrite Ha, Hj. simpl.
      eexists. split; [done|]. intros [?|?]; [done|lia].
Qed.

(** A worker that neither waits at the latch nor has returned. *)
Lemma busy_worker s :
  stop_inv s -> stop_requested s = false ->
  sum_list_with hw_wait (members s) < length (members s) ->
  exists j pc, members s !! j = Some (Running pc) /\ pc <> W_wait.
Proof.
  intros HK Hstop Hlt.
  destruct (sum_short_lookup hw_wait (members s) Hlt) as (j & th & Hl & Hw).
  destruct (HK j th Hl) as [[pc ->]|[? _]]; [|congruence].
  exists j, pc. split; [done|]. intros ->. done.
Qed.

(** With an item in the store that no producer is still publishing, some
    thread moves without a timeout. *)
Lemma taker_can_step s :
  hinv cfg s -> stop_inv s -> stop_requested s = false ->
  0 < length (items (tasks s)) -> m_enq e_pushed (mpc s) = 0 ->
  sum_list_with hw_wait (members s) < length (members s) ->
  exists c s', hstep cfg c s = Some s' /\ no_timeout c.
Proof.
  intros Hinv HK Hstop Hlen He Hwait.
  pose proof (hi_produced _ _ Hinv) as Hp.
  destruct (decide (0 < sum_list_with hw_acquired (members s))) as [Hacq|Hacq].
  - destruct (weight_worker _ _ hw_acquired_busy Hacq) as (j & pc & Hl & ? & ?).
    destruct (worker_can_step s j pc Hinv Hl ltac:(done)) as (c & s' & ? & Hn).
    exists c, s'. split; [done|]. apply Hn. by left.
  - destruct (busy_worker s HK Hstop Hwait) as (j & pc & Hl & ?).
    destruct (worker_can_step s j pc Hinv Hl ltac:(done)) as (c & s' & ? & Hn).
    exists c, s'. split; [done|]. apply Hn. right. lia.
Qed.

(** Before the end of [main] some thread can take a step, and until the
    join loop one that is not a timeout. *)
Lemma some_step_enabled s :
  1 <= capacity cfg -> hreachable cfg s -> mpc s <> M_exit ->
  exists c s', hstep cfg c s = Some s' /\
    ((forall k, mpc s <> M_tg_dtor k) -> no_timeout c).
Proof.
  intros Hcap Hre Hexit.
  pose proof (hinv_reachable cfg Hok s Hre) as Hinv.
  pose proof (stop_inv_reachable s Hre) as HK.
  pose proof (hi_alive _ _ Hinv) as Ha.
  destruct (main_step cfg s) as [s1| |] eqn:Hm.
  { exists Main, s1. unfold hstep. by rewrite Ha, Hm. }
  2: { by apply hinv_main_not_fatal in Hm. }
  pose proof (hw_sums_bound (members s)) as (Hb1 & Hb2 & Hb3).
  pose proof (task_count_length (items (tasks s))) as Hlen.
  pose proof (hi_produced _ _ Hinv) as Hp.
  pose proof (hi_space _ _ Hinv) as Hs.
  pose proof (hi_mutex _ _ Hinv) as Hmx.
  pose proof (hi_threads _ _ Hinv) as Hth.
  pose proof (hi_wf _ _ Hinv) as Hwf.
  pose proof (hi_stop _ _ Hinv) as Hst.
  pose proof (hi_phase _ _ Hinv) as Hph.
  destruct Hok as [HR HE HRE HT].
  destruct s as [[its mtx ip rs] cnt rn stop l mem pc ab].
  unfold phase_inv in Hph. simpl in *.
  destruct pc as [| |i|i|i []| |i|i []| | | | |k| | | |];
    main_step_cases Hm; simpl in *.
  all: try specialize (Hst _ eq_refl).
  all: match goal with
       | |- exists c s', hstep cfg c ?S = _ /\ _ => set (st := S) in *
       end.
  all: try (destruct (holder_can_step st Hinv eq_refl) as (c & s' & ? & ?);
            by eauto).
  - (* enqueue of a work item, no free slot *)
    destruct (decide (0 < sum_list_with hw_popped mem)) as [Hpop|Hpop].
    + destruct (weight_worker _ _ hw_popped_busy Hpop) as (j & wpc & Hl & ? & ?).
      destruct (worker_can_step st j wpc Hinv Hl ltac:(done))
        as (c & s' & ? & Hn).
      exists c, s'. split; [done|]. intros _. apply Hn. by left.
    + destruct (taker_can_step st Hinv HK) as (c & s' & ? & ?);
        simpl; try lia; eauto.
  - (* enqueue of a barrier task, no free slot *)
    destruct (decide (0 < sum_list_with hw_popped mem)) as [Hpop|Hpop].
    + destruct (weight_worker _ _ hw_popped_busy Hpop) as (j & wpc & Hl & ? & ?).
      destruct (worker_can_step st j wpc Hinv Hl ltac:(done))
        as (c & s' & ? & Hn).
      exists c, s'. split; [done|]. intros _. apply Hn. by left.
    + destruct (taker_can_step st Hinv HK) as (c & s' & ? & ?);
        simpl; try lia; eauto.
  - (* main waits at the latch *)
    destruct (decide (0 < sum_list_with (hw_holds tw_barrier) mem))
      as [Hhold|Hhold].
    + destruct (weight_worker _ _ (hw_holds_busy tw_barrier) Hhold)
        as (j & wpc & Hl & ? & ?).
      destruct (worker_can_step st j wpc Hinv Hl ltac:(done))
        as (c & s' & ? & Hn).
      exists c, s'. split; [done|]. intros _. apply Hn. by left.
    + destruct (taker_can_step st Hinv HK) as (c & s' & ? & ?);
        simpl; try lia; eauto.
  - (* main waits in join() *)
    match goal with H : mem !! k = Some (Running ?wpc) |- _ =>
      destruct (worker_can_step st k wpc Hinv H) as (c & s' & ? & Hn) end.
    { intros _. simpl. lia. }
    exists c, s'. split; [done|]. intros Hk. exfalso. by apply (Hk k).
Qed.

(** X8.  The driver cannot get stuck.  With a queue of capacity at least 1,
    in every reachable state before the end of [main] some thread can take a
    step, and the step does not abort.  Whenever [main] waits, for a free
    slot, for the mutex, at the latch or in [join()], a worker can move.
    Until [main] is in the join loop of the destructor of [tg], the step
    does not depend on a timed acquire giving up; during the join that
    timeout is what lets a worker parked in [try_dequeue_for] see the stop
    flag. *)
Theorem driver_progress s :
  1 <= capacity cfg -> hreachable cfg s -> mpc s <> M_exit ->
  exists c s', hstep cfg c s = Some s' /\ aborted s' = false /\
    ((forall k, mpc s <> M_tg_dtor k) -> no_timeout c).
Proof.
  intros Hcap Hre Hexit.
  destruct (some_step_enabled s Hcap Hre Hexit) as (c & s' & Hs & Hn).
  exists c, s'. split; [done|]. split; [|done].
  eapply hi_alive, hinv_step; eauto using hinv_reachable.
Qed.

(** X9.  A worker leaves its loop only after the store of line 115: if a
    thread of the group has returned or been joined, [stop_requested] is
    true and [main] is in the destructors of line 116.  While [main]
    enqueues the work and barrier tasks and waits at the latch, all
    [num_threads] workers exist and are running. *)
Theorem workers_run_until_stop s :
  hreachable cfg s ->
  (forall j th, members s !! j = Some th -> th = Finished \/ th = Joined ->
     stop_requested s = true /\
     (mpc s = M_latch_dtor \/ (exists k, mpc s = M_tg_dtor k) \/
      mpc s = M_members_dtor)) /\
  (phase_of (mpc s) = PhWork \/ phase_of (mpc s) = PhBarrier ->
     length (members s) = T /\
     Forall (fun th => exists pc, th = Running pc) (members s)).
Proof.
  intros Hre.
  pose proof (hinv_reachable cfg Hok s Hre) as Hinv.
  pose proof (stop_inv_reachable s Hre) as HK.
  pose proof (hi_threads _ _ Hinv) as Hth.
  pose proof (hi_stop _ _ Hinv) as Hst.
  split.
  - intros j th Hl Hdone.
    destruct (HK j th Hl) as [[pc ->]|[Hstop Halive]];
      [by destruct Hdone|].
    split; [done|].
    apply lookup_lt_Some in Hl. rewrite Hth in Hl.
    destruct (mpc s); simpl in *; eauto; try lia;
      specialize (Hst false eq_refl); congruence.
  - intros Hph. split.
    + destruct (mpc s); simpl in *; try done; destruct Hph; done.
    + apply Forall_lookup_2. intros j th Hl.
      destruct (HK j th Hl) as [?|[Hstop _]]; [done|].
      destruct (mpc s); simpl in *; destruct Hph; try done;
        specialize (Hst false eq_refl); congruence.
Qed.

(** X10.  The barrier comes after the work.  As long as a work task is in
    the store, no worker has taken a barrier task or arrived at the latch.
    When the latch of a round has opened, every work task of the round has
    been run: the counter stands at [(runs + 1) * num_enqueues_per_run], the
    store is empty, no worker holds a work task, and [main] has arrived. *)
Theorem barrier_after_work s :
  hreachable cfg s ->
  (0 < sum_list_with tw_work (items (tasks s)) ->
     sum_list_with (hw_holds tw_barrier) (members s) = 0 /\
     sum_list_with hw_wait (members s) = 0) /\
  (l_alive (mpc s) = true -> l_counter s = 0%Z ->
     count s = (runs s * E + E)%Z /\ items (tasks s) = [] /\
     sum_list_with (hw_holds tw_work) (members s) = 0 /\
     mpc s <> M_arrive /\ (forall i, mpc s <> M_barrier i) /\
     (forall i pc, mpc s <> M_barrier_enqueue i pc)).
Proof.
  intros Hre. pose proof (hinv_reachable cfg Hok s Hre) as Hinv.
  destruct Hok as [HR HE HRE HT].
  destruct s as [[its mtx ip rs] cnt rn stop l mem pc ab].
  destruct Hinv as [Ha Hp Hs Hm Hf Hsh Hc0 Hc Hr0 Hr Hth Hwf Hj Hst Hph].
  simpl in *.
  pose proof (main_pc_facts cfg Hok pc rn Hwf Hr)
    as (F1 & F2 & F3 & F4 & F5 & F6 & F7 & F8 & F9).
  pose proof (hw_sums_bound mem) as (Hb1 & Hb2 & Hb3).
  pose proof (task_count_length its) as Hlen.
  unfold phase_inv in Hph. simpl in Hph.
  split.
  - intros Hwork. destruct (phase_of pc) eqn:Hphase; lia.
  - intros Hl ->.
    assert (sum_list_with tw_work its = 0 /\ length its = 0 /\
            sum_list_with (hw_holds tw_work) mem = 0 /\
            pushed_work cfg pc = E /\
            (m_arrived pc = 1 \/ phase_of pc = PhDrained))
      as (Hw & Hz & Hh & Hpw & Hpc).
    { destruct pc; simpl in *; try done;
        (repeat split; [lia..|]); (by right) || (left; lia). }
    split; [lia|]. split; [by destruct its|]. split; [done|].
    destruct pc; simpl in *; try done; destruct Hpc; done.
Qed.

(** X11.  A worker about to run a barrier task (line 112) finds the latch
    alive with a positive counter, so its [arrive_and_wait()] counts down a
    live latch and never below zero; the stop flag is still false and no
    work task is left in the store. *)
Theorem latch_arrival_safe s j :
  hreachable cfg s ->
  members s !! j = Some (Running (W_call Barrier)) ->
  l_alive (mpc s) = true /\ (0 < l_counter s)%Z /\
  stop_requested s = false /\
  sum_list_with tw_work (items (tasks s)) = 0.
Proof.
  intros Hre Hl. pose proof (hinv_reachable cfg Hok s Hre) as Hinv.
  destruct Hok as [HR HE HRE HT].
  destruct s as [[its mtx ip rs] cnt rn stop l mem pc ab].
  destruct Hinv as [Ha Hp Hs Hm Hf Hsh Hc0 Hc Hr0 Hr Hth Hwf Hj Hst Hph].
  simpl in *.
  pose proof (main_pc_facts cfg Hok pc rn Hwf Hr)
    as (F1 & F2 & F3 & F4 & F5 & F6 & F7 & F8 & F9).
  pose proof (sum_lookup_le (hw_holds tw_barrier) _ _ _ Hl) as Hle.
  simpl in Hle.
  apply lookup_lt_Some in Hl.
  unfold phase_inv in Hph. simpl in Hph.
  destruct pc; simpl in *; try lia.
  all: specialize (Hst false eq_refl).
  all: repeat split; try done; lia.
Qed.

(** X12.  No counter of [main] wraps around.  The [int] counter stays
    between 0 and [num_runs * num_enqueues_per_run], so the increment of
    line 108 never overflows; the loop variables of lines 88 and 107 stay
    within [std::size_t]; and both sides of the comparison of line 118 are
    the exact values. *)
Theorem counters_never_wrap s :
  hreachable cfg s ->
  (0 <= count s <= R * E)%Z /\
  (forall j, members s !! j = Some (Running (W_call Work)) ->
     wrap_int (count s + 1) = (count s + 1)%Z) /\
  (forall i pc, mpc s = M_work_enqueue i pc ->
     wrap_size_t (i + 1) = (i + 1)%Z) /\
  (mpc s = M_stop_dtor -> wrap_size_t (runs s + 1) = (runs s + 1)%Z) /\
  (mpc s = M_final_assert ->
     wrap_size_t (R * E) = (R * E)%Z /\ wrap_size_t (count s) = count s).
Proof.
  intros Hre. pose proof (hinv_reachable cfg Hok s Hre) as Hinv.
  pose proof Hok as [HR HE HRE HT].
  destruct s as [[its mtx ip rs] cnt rn stop l mem pc ab].
  destruct Hinv as [Ha Hp Hs Hm Hf Hsh Hc0 Hc Hr0 Hr Hth Hwf Hj Hst Hph].
  simpl in *.
  pose proof (main_pc_facts cfg Hok pc rn Hwf Hr)
    as (F1 & F2 & F3 & F4 & F5 & F6 & F7 & F8 & F9).
  assert (rn * E + pushed_work cfg pc <= R * E)%Z as Hbound.
  { destruct (phase_of pc) eqn:Hphase.
    1: destruct pc; simpl in *; try done; nia.
    all: specialize (F5 ltac:(done)); nia. }
  split; [lia|]. split.
  { intros j Hl.
    pose proof (sum_lookup_le (hw_holds tw_work) _ _ _ Hl) as Hle.
    simpl in Hle. apply wrap_int_small. lia. }
  split.
  { intros i e ->. simpl in *. apply wrap_size_t_small. lia. }
  split.
  { intros ->. simpl in *. apply wrap_size_t_small. lia. }
  intros ->. simpl in *. split; apply wrap_size_t_small; nia.
Qed.

End DriverProgress.

Lemma driver_progress_witness :
  hreachable small_config (small_run 14) /\
  main_step small_config (small_run 14) = Blocked /\
  exists c s', hstep small_config c (small_run 14) = Some s' /\
               aborted s' = false /\ no_timeout c.
Proof.
  split; [apply small_run_reachable|]. split; [vm_compute; reflexivity|].
  assert (1 <= capacity small_config) as Hcap by (simpl; lia).
  assert (mpc (small_run 14) <> M_exit) as Hpc by (vm_compute; discriminate).
  destruct (driver_progress small_config small_config_ok (small_run 14)
              Hcap (small_run_reachable 14) Hpc) as (c & s' & Hs & Ha & Hn).
  exists c, s'. split; [exact Hs|]. split; [exact Ha|].
  apply Hn. intros k. vm_compute. discriminate.
Defined.

Lemma workers_run_until_stop_witness :
  hreachable small_config (small_run 49) /\
  members (small_run 49) !! 0 = Some Finished /\
  stop_requested (small_run 49) = true.
Proof.
  split; [apply small_run_reachable|]. split; [vm_compute; reflexivity|].
  destruct (workers_run_until_stop small_config small_config_ok (small_run 49)
              (small_run_reachable 49)) as [Hdone _].
  apply (Hdone 0 Finished); [vm_compute; reflexivity|by left].
Defined.

Lemma barrier_after_work_witness :
  hreachable small_config (small_run 44) /\
  l_alive (mpc (small_run 44)) = true /\
  l_counter (small_run 44) = 0%Z /\
  count (small_run 44) = (runs (small_run 44) * 1 + 1)%Z.
Proof.
  split; [apply small_run_reachable|].
  split; [vm_compute; reflexivity|]. split; [vm_compute; reflexivity|].
  destruct (barrier_after_work small_config small_config_ok (small_run 44)
              (small_run_reachable 44)) as [_ Hopen].
  apply Hopen; vm_compute; reflexivity.
Defined.

Lemma latch_arrival_safe_witness :
  hreachable small_config (small_run 43) /\
  members (small_run 43) !! 0 = Some (Running (W_call Barrier)) /\
  (0 < l_counter (small_run 43))%Z.
Proof.
  split; [apply small_run_reachable|]. split; [vm_compute; reflexivity|].
  apply (latch_arrival_safe small_config small_config_ok (small_run 43) 0
           (small_run_reachable 43)).
  vm_compute. reflexivity.
Defined.

Lemma counters_never_wrap_witness :
  hreachable small_config (small_run 32) /\
  members (small_run 32) !! 0 = Some (Running (W_call Work)) /\
  wrap_int (count (small_run 32) + 1) = (count (small_run 32) + 1)%Z.
Proof.
  split; [apply small_run_reachable|]. split; [vm_compute; reflexivity|].
  destruct (counters_never_wrap small_config small_config_ok (small_run 32)
              (small_run_reachable 32)) as (_ & Hinc & _).
  apply (Hinc 0). vm_compute. reflexivity.
Defined.

Lemma zero_config_ok : cfg_ok zero_config.
Proof. split; simpl; lia. Qed.

Section ZeroCapacity.

Variable cfg : config.
Hypothesis Hok : cfg_ok cfg.

(** X13.  A queue without a slot stops the driver.  With capacity 0 and at
    least one round to run, [main] never gets past
    [remaining_space.acquire()] in its first call of [enqueue]: in every
    reachable state the first round is still under way, nothing has been
    put in the store, and [main] has not reached its end. *)
Theorem zero_capacity_blocks_main s :
  capacity cfg = 0 -> (0 < num_runs cfg)%Z -> hreachable cfg s ->
  runs s = 0%Z /\ before_first_push (mpc s) = true /\
  items (tasks s) = [] /\ mpc s <> M_exit.
Proof.
  intros Hcap HR Hre.
  cut (runs s = 0%Z /\ before_first_push (mpc s) = true).
  { intros [Hr Hb]. split; [done|]. split; [done|]. split.
    - pose proof (hi_space _ _ (hinv_reachable cfg Hok s Hre)) as Hs.
      rewrite Hcap in Hs. destruct (items (tasks s)); [done|simpl in Hs; lia].
    - intros Hpc. by rewrite Hpc in Hb. }
  induction Hre as [|s c s' Hre IH Hstep]; [done|].
  destruct IH as [Hr Hb].
  pose proof (hinv_reachable cfg Hok s Hre) as Hinv.
  pose proof (hi_space _ _ Hinv) as Hs. rewrite Hcap in Hs.
  unfold hstep in Hstep. rewrite (hi_alive _ _ Hinv) in Hstep.
  destruct c as [|j timed_out].
  - destruct (main_step cfg s) as [s1| |] eqn:Hm; simplify_eq;
      [|by apply hinv_main_not_fatal in Hm].
    destruct s as [[its mtx ip rs] cnt rn stop l mem pc ab]. simpl in *.
    assert (rs = 0) as -> by lia.
    unfold main_step, main_enqueue, thread_group_ctor_step in Hm. simpl in Hm.
    destruct pc as [| |i|i|i []| |i|i []| | | | |k| | | |];
      simpl in *; try done; repeat case_match; simplify_eq/=; try done;
      try lia.
    (* the test of line 111 with no barrier task enqueued yet *)
    apply Nat.eqb_eq in Hb as ->.
    match goal with H : (0 <? _) = false |- _ => apply Nat.ltb_ge in H end.
    destruct Hok. lia.
  - destruct (members s !! j) as [[pc| |]|] eqn:Hj; simplify_eq.
    destruct (worker_step timed_out s pc) as [[[[q n] l] th]| |] eqn:Hw;
      simplify_eq; [|by eapply hinv_worker_not_fatal in Hw].
    done.
Qed.

End ZeroCapacity.

Lemma zero_capacity_blocks_main_witness :
  let s := hrun_greedy zero_config 40 (hinit zero_config) in
  hreachable zero_config s /\
  mpc s = M_work_enqueue 0 E_acquire /\ main_step zero_config s = Blocked /\
  mpc s <> M_exit.
Proof.
  intros s.
  assert (hreachable zero_config s) as Hre
    by (apply hrun_greedy_reach; constructor).
  split; [exact Hre|]. split; [vm_compute; reflexivity|].
  split; [vm_compute; reflexivity|].
  assert (capacity zero_config = 0) as Hcap by reflexivity.
  assert (0 < num_runs zero_config)%Z as HR by (simpl; lia).
  destruct (zero_capacity_blocks_main zero_config zero_config_ok s Hcap HR Hre)
    as (_ & _ & _ & Hne).
  exact Hne.
Defined.

(** * Runs counted step by step *)

(** ** The counts of a run *)

Lemma occurrences_snoc w tr st : occurrences w (tr ++ [st]) = occurrences w tr + w st.
Proof. unfold occurrences. rewrite sum_list_with_app. simpl. lia. Qed.

Lemma occurrences_app w tr1 tr2 : occurrences w (tr1 ++ tr2) = occurrences w tr1 + occurrences w tr2.
Proof. unfold occurrences. by rewrite sum_list_with_app. Qed.

Lemma drop_snoc_length {A : Type} (l : list A) x : drop (length l) (l ++ [x]) = [x].
Proof. by rewrite drop_app_length. Qed.

Lemma drop_tail_length {A : Type} (l : list A) : drop (S (length l)) l = [].
Proof. apply drop_ge. lia. Qed.

Ltac bool_cases :=
  repeat match goal with
    | |- context [(?a <? ?b)%Z] => destruct (Z.ltb_spec a b)
    | |- context [(?a =? ?b)%Z] => destruct (Z.eqb_spec a b)
    | |- context [negb ?b] => is_var b; destruct b
    end; simpl.

Ltac hyp_cases :=
  repeat match goal with
    | H : context [(?a =? ?b)%Z] |- _ => revert H
    | H : context [(?a <? ?b)%Z] |- _ => revert H
    end;
  repeat match goal with
    | |- context [(?a <? ?b)%Z] => destruct (Z.ltb_spec a b)
    | |- context [(?a =? ?b)%Z] => destruct (Z.eqb_spec a b)
    end; simpl; intros.

Section TraceProofs.

Variable cfg : config.
Hypothesis Hok : cfg_ok cfg.

Local Abbreviation R := (num_runs cfg).
Local Abbreviation E := (num_enqueues_per_run cfg).
Local Abbreviation T := (num_threads cfg).

Lemma tinv_init : tinv cfg [] (hinit cfg).
Proof.
  split; unfold occurrences, round_arrivals, round_opened, round_stopped; simpl; lia.
Qed.


Lemma tinv_main tr s s' :
  hinv cfg s -> tinv cfg tr s -> main_step cfg s = Next s' ->
  tinv cfg (tr ++ [(s, Main, s')]) s'.
Proof.
  intros Hinv Ht Hstep. destruct Hok as [HR HE HRE HT].
  destruct s as [[its mtx ip rs] cnt rn stop l mem pc ab].
  destruct Hinv as [Ha Hp Hs Hm Hf Hsh Hc0 Hc Hr0 Hr Hth Hwf Hj Hst Hph].
  simpl in *.
  destruct pc as [| |i|i|i []| |i|i []| | | | |k| | | |];
    main_step_cases Hstep; unfold phase_inv in Hph; simpl in Hph.
  all: rewrite ?wrap_size_t_small by lia.
  all: try (specialize (Hst _ eq_refl); subst stop).
  all: destruct Ht as [T1 T2 T3 T4 T5 T6 T7];
    unfold round_arrivals, round_opened, round_stopped in *; simpl in *.
  all: split; rewrite occurrences_snoc; simpl;
    unfold round_arrivals, round_opened, round_stopped; simpl;
    rewrite ?drop_all, ?drop_snoc_length, ?Z.sub_diag; simpl; try lia.
  all: revert T1 T2 T3 T4 T5 T6 T7; bool_cases; intros; try lia.
Qed.

Lemma tinv_worker tr s j b pc q c l th :
  hinv cfg s -> tinv cfg tr s -> members s !! j = Some (Running pc) ->
  worker_step b s pc = Next (q, c, l, th) ->
  let s' := mkH q c (runs s) (stop_requested s) l (<[j := th]> (members s))
                (mpc s) false in
  tinv cfg (tr ++ [(s, Worker j b, s')]) s'.
Proof.
  intros Hinv Ht Hj0 Hstep s'. subst s'. destruct Hok as [HR HE HRE HT].
  destruct s as [[its mtx ip rs] cnt rn stop l0 mem mp ab].
  destruct Hinv as [Ha Hp Hs Hm Hf Hsh Hc0 Hc Hr0 Hr Hth Hwf Hj Hst Hph].
  simpl in *.
  pose proof (main_pc_facts cfg Hok mp rn Hwf Hr)
    as (F1 & F2 & F3 & F4 & F5 & F6 & F7 & F8 & F9).
  pose proof (sum_lookup_le (hw_holds tw_work) _ _ _ Hj0) as Hle1.
  pose proof (sum_lookup_le (hw_holds tw_barrier) _ _ _ Hj0) as Hle2.
  pose proof (sum_lookup_le hw_wait _ _ _ Hj0) as Hle3.
  apply lookup_lt_Some in Hj0 as Hlt.
  assert (rn * E + pushed_work cfg mp <= R * E)%Z as Hbound.
  { destruct (phase_of mp) eqn:Hphase.
    1: destruct mp; simpl in *; try done; nia.
    all: specialize (F5 ltac:(done)); nia. }
  unfold phase_inv in Hph. simpl in Hph.
  destruct pc as [|[| | | | |tmp|tmp|tmp|[f|]]|[]|]; worker_step_cases Hstep.
  all: rewrite ?wrap_int_small by (simpl in *; lia).
  all: destruct Ht as [T1 T2 T3 T4 T5 T6 T7];
    unfold round_arrivals, round_opened, round_stopped in *; simpl in *.
  all: split; rewrite occurrences_snoc; simpl; rewrite ?Hj0; simpl;
    unfold round_arrivals, round_opened, round_stopped; simpl;
    rewrite ?drop_all, ?drop_tail_length, ?Z.sub_diag; simpl; try lia.
  all: destruct mp; simpl in *; try lia.
  all: revert T1 T2 T3 T4 T5 T6 T7; bool_cases; intros; try lia.
Qed.

End TraceProofs.

(** ** Every run can be completed *)

Lemma pot_le stop th : pot stop th <= 20.
Proof. destruct stop, th as [[|[| | | | | | | |[]]| |]| |]; simpl; lia. Qed.

Lemma sum_pot_le stop (m : list (thread worker_pc)) :
  sum_list_with (pot stop) m <= 20 * length m.
Proof.
  induction m as [|th m IH]; simpl; [lia|].
  pose proof (pot_le stop th). lia.
Qed.

Section MeasureProofs.

Variable cfg : config.
Hypothesis Hok : cfg_ok cfg.

Local Abbreviation R := (num_runs cfg).
Local Abbreviation E := (num_enqueues_per_run cfg).
Local Abbreviation T := (num_threads cfg).

Lemma workers_left_bound s : hinv cfg s -> workers_left s < workers_bound cfg.
Proof.
  intros Hinv. unfold workers_left, workers_bound.
  pose proof (hi_space _ _ Hinv) as Hs.
  pose proof (hi_threads _ _ Hinv) as Hth.
  pose proof (sum_pot_le (stop_requested s) (members s)) as Hp.
  assert (m_threads cfg (mpc s) <= T) as Hm.
  { pose proof (hi_wf _ _ Hinv) as Hwf.
    destruct (mpc s); simpl in *; lia. }
  lia.
Qed.

Lemma rank_main s s' :
  hinv cfg s -> main_step cfg s = Next s' -> rank cfg s' < rank cfg s.
Proof.
  intros Hinv Hstep. destruct Hok as [HR HE HRE HT].
  destruct s as [[its mtx ip rs] cnt rn stop l mem pc ab].
  destruct Hinv as [Ha Hp Hs Hm Hf Hsh Hc0 Hc Hr0 Hr Hth Hwf Hj Hst Hph].
  unfold rank, round_len. simpl in *.
  destruct pc as [| |i|i|i []| |i|i []| | | | |k| | | |];
    main_step_cases Hstep; simpl in *.
  all: rewrite ?wrap_size_t_small by lia.
  all: repeat match goal with
         | H : _ !! _ = Some _ |- _ => apply lookup_lt_Some in H
         | H : _ !! _ = None |- _ => apply lookup_ge_None in H
         end.
  all: try lia.
  replace (Z.to_nat (R - rn)) with (S (Z.to_nat (R - (rn + 1)))) by lia.
  simpl. lia.
Qed.

(** A worker's step, while [main] cannot move, brings the workers closer to
    where they wait for [main]; before the stop flag is set this holds of
    the steps that are not timeouts. *)
Lemma workers_left_step s j b pc q c l th :
  hinv cfg s -> main_step cfg s = Blocked ->
  members s !! j = Some (Running pc) ->
  worker_step b s pc = Next (q, c, l, th) ->
  (stop_requested s = false -> b = false) ->
  workers_left (mkH q c (runs s) (stop_requested s) l (<[j := th]> (members s))
                    (mpc s) false)
  < workers_left s.
Proof.
  intros Hinv Hmain Hj0 Hstep Hb. destruct Hok as [HR HE HRE HT].
  destruct s as [[its mtx ip rs] cnt rn stop l0 mem mp ab].
  destruct Hinv as [Ha Hp Hs Hm Hf Hsh Hc0 Hc Hr0 Hr Hth Hwf Hj Hst Hph].
  unfold workers_left. simpl in *.
  pose proof (main_pc_facts cfg Hok mp rn Hwf Hr)
    as (F1 & F2 & F3 & F4 & F5 & F6 & F7 & F8 & F9).
  pose proof (hw_sums_bound mem) as (Hb1 & Hb2 & Hb3).
  pose proof (sum_lookup_le (hw_holds tw_work) _ _ _ Hj0) as Hle1.
  pose proof (sum_lookup_le (hw_holds tw_barrier) _ _ _ Hj0) as Hle2.
  pose proof (sum_lookup_le hw_wait _ _ _ Hj0) as Hle3.
  pose proof (sum_lookup_le hw_acquired _ _ _ Hj0) as Hle4.
  pose proof (sum_lookup_le hw_popped _ _ _ Hj0) as Hle5.
  unfold phase_inv in Hph. simpl in Hph.
  destruct mp as [| |i|i|i []| |i|i []| | | | |k| | | |];
    main_step_cases Hmain; simpl in *.
  all: try (by destruct mem).
  all: try specialize (Hst _ eq_refl); subst.
  all: try specialize (Hb eq_refl); subst.
  all: destruct pc as [|[| | | | |tmp|tmp|tmp|[f|]]|[]|];
    worker_step_cases Hstep; simpl in *; try lia.
  all: sum_facts; simpl in *; try lia.
  destruct f; simpl in *; lia.
Qed.

Lemma run_left_step s :
  1 <= capacity cfg -> hreachable cfg s -> mpc s <> M_exit ->
  exists c s', hstep cfg c s = Some s' /\ run_left cfg s' < run_left cfg s.
Proof.
  intros Hcap Hre Hexit.
  pose proof (hinv_reachable cfg Hok s Hre) as Hinv.
  pose proof (hi_alive _ _ Hinv) as Ha.
  destruct (main_step cfg s) as [s1| |] eqn:Hm.
  - exists Main, s1. split; [unfold hstep; by rewrite Ha, Hm|].
    pose proof (rank_main s s1 Hinv Hm) as Hr.
    pose proof (workers_left_bound s1 (hinv_main cfg Hok s s1 Hinv Hm)) as Hb.
    unfold run_left. nia.
  - destruct (some_step_enabled cfg Hok s Hcap Hre Hexit)
      as (c & s' & Hstep & Hn).
    exists c, s'. split; [done|].
    unfold hstep in Hstep. rewrite Ha in Hstep.
    destruct c as [|j b]; [by rewrite Hm in Hstep|].
    destruct (members s !! j) as [[pc| |]|] eqn:Hj; simplify_eq.
    destruct (worker_step b s pc) as [[[[q n] l] th]| |] eqn:Hw;
      simplify_eq; [|by eapply hinv_worker_not_fatal in Hw].
    assert (stop_requested s = false -> b = false) as Hb.
    { intros Hstop. destruct b; [|done]. exfalso. apply Hn.
      intros k Hk. pose proof (hi_stop _ _ Hinv true) as Hst.
      rewrite Hk in Hst. simpl in Hst. specialize (Hst eq_refl). congruence. }
    pose proof (workers_left_step s j b pc q n l th Hinv Hm Hj Hw Hb) as Hlt.
    unfold run_left, rank. simpl. lia.
  - by apply hinv_main_not_fatal in Hm.
Qed.

(** From every reachable state the end of [main] can be reached. *)
Lemma exit_reachable s :
  1 <= capacity cfg -> hreachable cfg s ->
  exists s', hreach cfg s s' /\ mpc s' = M_exit.
Proof.
  intros Hcap.
  remember (run_left cfg s) as n eqn:Hn. revert s Hn.
  induction n as [n IH] using lt_wf_ind. intros s -> Hre.
  destruct (mpc s) eqn:Hpc.
  17: { exists s. split; [constructor|done]. }
  all: destruct (run_left_step s Hcap Hre ltac:(congruence)) as (c & s1 & Hstep & Hlt);
    destruct (IH _ Hlt s1 eq_refl) as (s' & Hre' & Hexit);
      [by econstructor; eauto|];
    exists s'; (split; [|done]);
    eapply hreach_trans; [|exact Hre']; econstructor; [constructor|exact Hstep].
Qed.

End MeasureProofs.

(** ** Runs, reachable states and the counts *)

Section TraceTheorems.

Variable cfg : config.
Hypothesis Hok : cfg_ok cfg.

Local Abbreviation R := (num_runs cfg).
Local Abbreviation E := (num_enqueues_per_run cfg).
Local Abbreviation T := (num_threads cfg).

Lemma hexec_reachable tr s : hexec cfg tr s -> hreachable cfg s.
Proof. induction 1; [constructor|econstructor; eauto]. Qed.

Lemma hexec_extend tr s s' :
  hexec cfg tr s -> hreach cfg s s' -> exists tr', hexec cfg (tr ++ tr') s'.
Proof.
  intros Hex. induction 1 as [|s1 c s2 Hre IH Hstep].
  - exists []. by rewrite app_nil_r.
  - destruct IH as [tr' Hex']. exists (tr' ++ [(s1, c, s2)]).
    rewrite app_assoc. by econstructor.
Qed.

Lemma hreachable_hexec s : hreachable cfg s -> exists tr, hexec cfg tr s.
Proof.
  intros Hre. destruct (hexec_extend [] (hinit cfg) s) as [tr Htr];
    [constructor|done|]. eauto.
Qed.

Lemma htrace_hexec sched tr0 s0 tr s :
  hexec cfg tr0 s0 -> htrace cfg sched s0 = Some (tr, s) ->
  hexec cfg (tr0 ++ tr) s.
Proof.
  revert tr0 s0 tr. induction sched as [|c sched IH]; intros tr0 s0 tr H0 Hrun;
    simpl in Hrun.
  - simplify_eq. by rewrite app_nil_r.
  - destruct (hstep cfg c s0) as [s1|] eqn:Hstep; [|done].
    destruct (htrace cfg sched s1) as [[tr1 s2]|] eqn:Hrun1; simplify_eq.
    replace (tr0 ++ (s0, c, s1) :: tr1) with ((tr0 ++ [(s0, c, s1)]) ++ tr1)
      by (by rewrite <- app_assoc).
    eapply IH; [|done]. by econstructor.
Qed.

Lemma tinv_step tr s c s' :
  hinv cfg s -> tinv cfg tr s -> hstep cfg c s = Some s' ->
  tinv cfg (tr ++ [(s, c, s')]) s'.
Proof.
  intros Hinv Ht Hstep. unfold hstep in Hstep.
  rewrite (hi_alive _ _ Hinv) in Hstep.
  destruct c as [|j b].
  - destruct (main_step cfg s) as [s1| |] eqn:Hm; simplify_eq.
    + by apply tinv_main.
    + by apply hinv_main_not_fatal in Hm.
  - destruct (members s !! j) as [[pc| |]|] eqn:Hj; simplify_eq.
    destruct (worker_step b s pc) as [[[[q n] l] th]| |] eqn:Hw; simplify_eq.
    + by eapply tinv_worker.
    + by eapply hinv_worker_not_fatal in Hw.
Qed.

Lemma hexec_tinv tr s : hexec cfg tr s -> tinv cfg tr s.
Proof.
  induction 1 as [|tr s c s' Hex IH Hstep]; [apply tinv_init|].
  eapply tinv_step; eauto using hinv_reachable, hexec_reachable.
Qed.

Lemma step_counts_calls s c s' :
  hinv cfg s -> hstep cfg c s = Some s' -> counts_calls (s, c, s').
Proof.
  intros Hinv Hstep. unfold hstep in Hstep.
  rewrite (hi_alive _ _ Hinv) in Hstep. unfold counts_calls, ev_called.
  destruct c as [|j b].
  - destruct (main_step cfg s) as [s1| |] eqn:Hm; simplify_eq;
      [|by apply hinv_main_not_fatal in Hm].
    unfold main_step, main_enqueue in Hm.
    repeat case_match; simplify_eq/=; lia.
  - destruct (members s !! j) as [[pc| |]|] eqn:Hj; simplify_eq.
    destruct (worker_step b s pc) as [[[[q n] l] th]| |] eqn:Hw;
      simplify_eq; [|by eapply hinv_worker_not_fatal in Hw].
    simpl.
    pose proof (sum_lookup_le (hw_holds tw_work) _ _ _ Hj) as Hle.
    pose proof (hi_count _ _ Hinv) as Hc.
    pose proof (hi_count_pos _ _ Hinv) as Hc0.
    pose proof (hi_runs _ _ Hinv) as Hr.
    pose proof (hi_runs_pos _ _ Hinv) as Hr0.
    pose proof (hi_wf _ _ Hinv) as Hwf.
    pose proof (main_pc_facts cfg Hok _ _ Hwf Hr)
      as (F1 & F2 & F3 & F4 & F5 & F6 & F7 & F8 & F9).
    destruct Hok as [HR HE HRE HT].
    assert (runs s * E + pushed_work cfg (mpc s) <= R * E)%Z as Hbound.
    { destruct (phase_of (mpc s)) eqn:Hphase.
      1: destruct (mpc s); simpl in *; try done; nia.
      all: specialize (F5 ltac:(done)); nia. }
    clear F1 F2 F3 F4 F5 F6 F7 F8 F9 Hwf Hr.
    destruct s as [[its mtx ip rs] cnt rn stop l0 mem mp ab]. simpl in *.
    destruct pc as [|[| | | | |tmp|tmp|tmp|[f|]]|[]|]; worker_step_cases Hw;
      rewrite ?wrap_int_small by (simpl in *; lia); simpl in *; lia.
Qed.

Lemma hexec_counts_calls tr s : hexec cfg tr s -> Forall counts_calls tr.
Proof.
  induction 1 as [|tr s c s' Hex IH Hstep]; [constructor|].
  apply Forall_app. split; [done|]. constructor; [|constructor].
  eapply step_counts_calls; eauto using hinv_reachable, hexec_reachable.
Qed.

End TraceTheorems.

(** ** Work tasks and barrier, counted *)

Section ClaimTheorems.

Variable cfg : config.
Hypothesis Hok : cfg_ok cfg.

Local Abbreviation R := (num_runs cfg).
Local Abbreviation E := (num_enqueues_per_run cfg).
Local Abbreviation T := (num_threads cfg).

Lemma hexec_completes tr s :
  1 <= capacity cfg -> hexec cfg tr s ->
  exists tr' s', hexec cfg (tr ++ tr') s' /\ mpc s' = M_exit.
Proof.
  intros Hcap Hex.
  destruct (exit_reachable cfg Hok s Hcap (hexec_reachable cfg tr s Hex))
    as (s' & Hre & Hexit).
  destruct (hexec_extend cfg tr s s' Hex Hre) as [tr' Hex'].
  eauto.
Qed.

(** C2.  Counted on the steps of a run, not read off where [main] stands.
    Every step changes [count] by the calls of work tasks in it, so [count]
    is the number of work tasks executed.  The work tasks executed, those
    held by workers and those in the store are exactly the work tasks that
    steps have put into the store: none is lost, none runs twice.  Between
    the start and the end of a round exactly [num_enqueues_per_run] work
    tasks are enqueued and as many executed.  At the final assertion and at
    the end of [main] both numbers and [count] are
    [num_runs * num_enqueues_per_run], and the assertion passes.  With a
    capacity of at least 1 every run can be continued to the end of [main];
    in the configured scenario [count] is 5,120,000 there. *)
Theorem work_count_exact tr s :
  hexec cfg tr s ->
  let pushed := occurrences (ev_pushed tw_work) tr in
  let called := occurrences (ev_called tw_work) tr in
  aborted s = false /\
  Forall counts_calls tr /\
  count s = Z.of_nat called /\
  called + sum_list_with (hw_holds tw_work) (members s)
    + sum_list_with tw_work (items (tasks s)) = pushed /\
  (mpc s = M_stop_init ->
     Z.of_nat pushed = (runs s * E)%Z /\ Z.of_nat called = (runs s * E)%Z) /\
  (mpc s = M_stop_dtor ->
     Z.of_nat pushed = (runs s * E + E)%Z /\
     Z.of_nat called = (runs s * E + E)%Z) /\
  (forall tr1 tr2 s1,
     tr = tr1 ++ tr2 -> hexec cfg tr1 s1 ->
     mpc s1 = M_stop_init -> mpc s = M_stop_dtor -> runs s = runs s1 ->
     Z.of_nat (occurrences (ev_pushed tw_work) tr2) = E /\
     Z.of_nat (occurrences (ev_called tw_work) tr2) = E) /\
  (mpc s = M_final_assert \/ mpc s = M_exit ->
     Z.of_nat pushed = (R * E)%Z /\ Z.of_nat called = (R * E)%Z /\
     count s = (R * E)%Z) /\
  (mpc s = M_final_assert -> main_step cfg s = Next (set_mpc s M_exit)) /\
  (1 <= capacity cfg ->
     exists tr' s', hexec cfg (tr ++ tr') s' /\ mpc s' = M_exit /\
                    count s' = (R * E)%Z) /\
  (cfg = repro_config ->
     (mpc s = M_exit -> count s = 5120000%Z) /\
     exists tr' s', hexec cfg (tr ++ tr') s' /\ mpc s' = M_exit /\
                    count s' = 5120000%Z).
Proof.
  intros Hex pushed called.
  pose proof (hexec_reachable cfg tr s Hex) as Hre.
  pose proof (hinv_reachable cfg Hok s Hre) as Hinv.
  pose proof (hexec_tinv cfg Hok tr s Hex) as [T1 T2 _ _ _ _ _].
  fold pushed in T1. fold called in T2.
  pose proof (hi_count _ _ Hinv) as Hc.
  pose proof (hi_runs _ _ Hinv) as Hr.
  assert (forall s0, hinv cfg s0 -> phase_of (mpc s0) = PhIdle ->
            count s0 = (runs s0 * E + pushed_work cfg (mpc s0))%Z) as Hidle.
  { intros s0 Hi Hp0.
    pose proof (hi_count _ _ Hi) as Hc0.
    pose proof (hi_phase _ _ Hi) as Hph0. unfold phase_inv in Hph0.
    pose proof (task_count_length (items (tasks s0))) as Hl.
    pose proof (hi_threads _ _ Hi) as Ht0.
    pose proof (main_pc_facts cfg Hok _ _ (hi_wf _ _ Hi) (hi_runs _ _ Hi))
      as (_ & _ & _ & F4 & _).
    rewrite Hp0 in Hph0. rewrite (F4 Hp0) in Ht0.
    destruct (members s0); [|done]. simpl in *. lia. }
  assert (forall tr0 s0, hexec cfg tr0 s0 -> mpc s0 = M_exit ->
            count s0 = (R * E)%Z) as Hend.
  { intros tr0 s0 Hex0 Hpc.
    pose proof (hinv_reachable cfg Hok s0 (hexec_reachable cfg _ _ Hex0)) as Hi.
    pose proof (hi_runs _ _ Hi) as Hr0.
    rewrite (Hidle s0 Hi) by (by rewrite Hpc).
    rewrite Hpc in *. simpl in *. rewrite Hr0. lia. }
  assert (1 <= capacity cfg ->
          exists tr' s', hexec cfg (tr ++ tr') s' /\ mpc s' = M_exit /\
                         count s' = (R * E)%Z) as Hlive.
  { intros Hcap. destruct (hexec_completes tr s Hcap Hex) as (tr' & s' & H1 & H2).
    exists tr', s'. eauto. }
  split; [apply (hi_alive _ _ Hinv)|].
  split; [by eapply hexec_counts_calls|].
  split; [done|].
  split; [lia|].
  split.
  { intros Hpc. pose proof (Hidle s Hinv) as Hi.
    rewrite Hpc in *. simpl in *. specialize (Hi eq_refl). lia. }
  split.
  { intros Hpc. pose proof (Hidle s Hinv) as Hi.
    rewrite Hpc in *. simpl in *. specialize (Hi eq_refl). lia. }
  split.
  { intros tr1 tr2 s1 -> Hex1 Hpc1 Hpc Hruns.
    pose proof (hexec_tinv cfg Hok tr1 s1 Hex1) as [U1 U2 _ _ _ _ _].
    pose proof (Hidle s Hinv) as Hi.
    pose proof (Hidle s1 (hinv_reachable cfg Hok s1
                            (hexec_reachable cfg _ _ Hex1))) as Hi1.
    subst pushed called. rewrite !occurrences_app in *.
    rewrite Hpc, Hpc1, Hruns in *. simpl in *.
    specialize (Hi eq_refl). specialize (Hi1 eq_refl). lia. }
  split.
  { intros Hpc. pose proof (Hidle s Hinv) as Hi.
    destruct Hpc as [Hpc|Hpc]; rewrite Hpc in *; simpl in *;
      specialize (Hi eq_refl); rewrite Hr in *; lia. }
  split.
  { intros Hpc. pose proof (Hidle s Hinv) as Hi.
    unfold main_step. rewrite Hpc in *. simpl in *. specialize (Hi eq_refl).
    replace (count s) with (R * E)%Z by (rewrite Hr in *; lia).
    by rewrite Z.eqb_refl. }
  split; [done|].
  intros ->. split.
  - intros Hpc. by rewrite (Hend tr s Hex Hpc).
  - apply Hlive. simpl. lia.
Qed.

End ClaimTheorems.

Lemma hexec_small : hexec small_config small_log small_end.
Proof.
  apply (htrace_hexec small_config small_schedule [] (hinit small_config));
    [constructor|reflexivity].
Qed.

Lemma work_count_exact_witness :
  hexec small_config small_log small_end /\
  mpc small_end = M_exit /\
  occurrences (ev_pushed tw_work) small_log = 1 /\
  occurrences (ev_called tw_work) small_log = 1 /\
  count small_end = 1%Z.
Proof.
  split; [exact hexec_small|]. split; [reflexivity|].
  split; [reflexivity|]. split; [reflexivity|].
  destruct (work_count_exact small_config small_config_ok small_log small_end
              hexec_small) as (_ & _ & _ & _ & _ & _ & _ & Hfinal & _).
  destruct Hfinal as (_ & _ & Hcount); [by right|]. exact Hcount.
Defined.

Section BarrierTheorem.

Variable cfg : config.
Hypothesis Hok : cfg_ok cfg.

Local Abbreviation R := (num_runs cfg).
Local Abbreviation E := (num_enqueues_per_run cfg).
Local Abbreviation T := (num_threads cfg).


(** C7.  Counted on the steps of a run.  A round starts with as many latch
    openings and stores of the stop flag as rounds have been completed, and
    ends with one more of each, [num_threads] more barrier tasks enqueued
    and executed, and [num_threads + 1] more arrivals: the latch of a round
    opens exactly once, with exactly [num_threads + 1] arrivals.  [main]
    arrives only after it has enqueued all [num_threads] barrier tasks.
    While the latch is alive its counter is [num_threads + 1] less the
    arrivals of the round, and it has opened exactly when the counter is 0;
    before that the stop flag is false.  At line 115 the latch has opened
    and the flag is not yet set; the flag is true exactly once the store of
    the round has been made, never before the opening.  With a capacity of
    at least 1 every run can be continued to the end of [main], where
    [num_runs] openings and [num_runs] stores have taken place: no round's
    barrier is skipped and none hangs. *)
Theorem barrier_completeness tr s :
  hexec cfg tr s ->
  let pushed := Z.of_nat (occurrences (ev_pushed tw_barrier) tr) in
  let called := Z.of_nat (occurrences (ev_called tw_barrier) tr) in
  let arrived := Z.of_nat (occurrences ev_arrived tr) in
  let opened := Z.of_nat (occurrences ev_opened tr) in
  let stopped := Z.of_nat (occurrences ev_stopped tr) in
  (runs s <= stopped <= opened /\ opened <= runs s + 1)%Z /\
  (mpc s = M_stop_init ->
     pushed = (runs s * Z.of_nat T)%Z /\ called = (runs s * Z.of_nat T)%Z /\
     arrived = (runs s * (Z.of_nat T + 1))%Z /\
     opened = runs s /\ stopped = runs s) /\
  (mpc s = M_stop_dtor ->
     pushed = ((runs s + 1) * Z.of_nat T)%Z /\
     called = ((runs s + 1) * Z.of_nat T)%Z /\
     arrived = ((runs s + 1) * (Z.of_nat T + 1))%Z /\
     opened = (runs s + 1)%Z /\ stopped = (runs s + 1)%Z) /\
  (mpc s = M_arrive -> pushed = ((runs s + 1) * Z.of_nat T)%Z) /\
  (l_alive (mpc s) = true ->
     (0 <= l_counter s <= Z.of_nat T + 1)%Z /\
     arrived = (runs s * (Z.of_nat T + 1) + (Z.of_nat T + 1 - l_counter s))%Z /\
     (l_counter s = 0%Z <-> opened = (runs s + 1)%Z) /\
     ((0 < l_counter s)%Z -> stopped = runs s /\ stop_requested s = false)) /\
  (l_alive (mpc s) = true -> l_counter s = 0%Z ->
     pushed = ((runs s + 1) * Z.of_nat T)%Z /\
     called = ((runs s + 1) * Z.of_nat T)%Z /\
     arrived = ((runs s + 1) * (Z.of_nat T + 1))%Z /\
     sum_list_with tw_barrier (items (tasks s)) = 0 /\
     sum_list_with (hw_holds tw_barrier) (members s) = 0) /\
  (mpc s = M_wait -> l_counter s = 0%Z ->
     main_step cfg s = Next (set_mpc s M_stop_store)) /\
  (mpc s = M_stop_store ->
     opened = (runs s + 1)%Z /\ stopped = runs s /\
     stop_requested s = false /\
     main_step cfg s = Next (set_stop_requested s true M_latch_dtor)) /\
  (stop_alive (mpc s) = true ->
     (stop_requested s = true <-> stopped = (runs s + 1)%Z)) /\
  (mpc s = M_exit ->
     pushed = (R * Z.of_nat T)%Z /\ called = (R * Z.of_nat T)%Z /\
     arrived = (R * (Z.of_nat T + 1))%Z /\ opened = R /\ stopped = R) /\
  (1 <= capacity cfg ->
     exists tr' s',
       hexec cfg (tr ++ tr') s' /\ mpc s' = M_exit /\
       Z.of_nat (occurrences ev_opened (tr ++ tr')) = R /\
       Z.of_nat (occurrences ev_stopped (tr ++ tr')) = R).
Proof.
  intros Hex pushed called arrived opened stopped.
  assert (forall tr0 s0, hexec cfg tr0 s0 -> mpc s0 = M_exit ->
            Z.of_nat (occurrences (ev_pushed tw_barrier) tr0) = (R * Z.of_nat T)%Z /\
            Z.of_nat (occurrences (ev_called tw_barrier) tr0) = (R * Z.of_nat T)%Z /\
            Z.of_nat (occurrences ev_arrived tr0) = (R * (Z.of_nat T + 1))%Z /\
            Z.of_nat (occurrences ev_opened tr0) = R /\
            Z.of_nat (occurrences ev_stopped tr0) = R) as Hend.
  { intros tr0 s0 Hex0 Hpc.
    pose proof (hinv_reachable cfg Hok s0 (hexec_reachable cfg _ _ Hex0)) as Hi.
    pose proof (hi_runs _ _ Hi) as Hr0.
    destruct (hexec_tinv cfg Hok tr0 s0 Hex0) as [_ _ U3 U4 U5 U6 U7].
    unfold round_arrivals, round_opened, round_stopped in *.
    rewrite Hpc in *. simpl in *. rewrite Hr0 in *. lia. }
  assert (1 <= capacity cfg ->
     exists tr' s',
       hexec cfg (tr ++ tr') s' /\ mpc s' = M_exit /\
       Z.of_nat (occurrences ev_opened (tr ++ tr')) = R /\
       Z.of_nat (occurrences ev_stopped (tr ++ tr')) = R) as Hlive.
  { intros Hcap.
    destruct (hexec_completes cfg Hok tr s Hcap Hex) as (tr' & s' & H1 & H2).
    exists tr', s'. destruct (Hend _ _ H1 H2) as (_ & _ & _ & ? & ?). done. }
  pose proof (Hend tr s Hex) as Hexit. clear Hend.
  pose proof (hinv_reachable cfg Hok s (hexec_reachable cfg tr s Hex)) as Hinv.
  destruct (hexec_tinv cfg Hok tr s Hex) as [_ _ U3 U4 U5 U6 U7].
  fold pushed in U3, Hexit. fold called in U4, Hexit.
  fold arrived in U5, Hexit. fold opened in U6, Hexit.
  fold stopped in U7, Hexit.
  clearbody pushed called arrived opened stopped. clear Hex.
  destruct Hok as [HR HE HRE HT].
  destruct s as [[its mtx ip rs] cnt rn stop l mem pc ab].
  destruct Hinv as [Ha Hp Hs Hm Hf Hsh Hc0 Hc Hr0 Hr Hth Hwf Hj Hst Hph].
  unfold round_arrivals, round_opened, round_stopped in *.
  simpl in *.
  pose proof (main_pc_facts cfg Hok pc rn Hwf Hr)
    as (F1 & F2 & F3 & F4 & F5 & F6 & F7 & F8 & F9).
  pose proof (hw_sums_bound mem) as (Hb1 & Hb2 & Hb3).
  pose proof (task_count_length its) as Hlen.
  unfold phase_inv in Hph. simpl in Hph.
  unfold main_step, latch_try_wait.
  split.
  { destruct pc; simpl in *; hyp_cases; lia. }
  split.
  { intros ->. simpl in *. lia. }
  split.
  { intros ->. simpl in *. lia. }
  split.
  { intros ->. simpl in *. lia. }
  split.
  { intros Hl. destruct pc; simpl in *; try done; hyp_cases;
      try specialize (Hst _ eq_refl);
      (split; [lia|]); (split; [lia|]); (split; [split; intros; lia|]);
      intros; (split; [lia|done || lia]). }
  split.
  { intros Hl ->. destruct pc; simpl in *; try done; hyp_cases; lia. }
  split.
  { intros -> ->. done. }
  split.
  { intros ->. simpl in *. hyp_cases; try lia.
    specialize (Hst _ eq_refl). repeat split; try lia; done. }
  split.
  { intros Hsa. destruct pc; simpl in *; try done;
      specialize (Hst _ eq_refl); subst stop; split; intros; (done || lia). }
  split.
  { intros ->. by apply Hexit. }
  exact Hlive.
Qed.

End BarrierTheorem.

Lemma barrier_completeness_witness :
  hexec small_config small_log small_end /\
  mpc small_end = M_exit /\
  occurrences (ev_pushed tw_barrier) small_log = 1 /\
  occurrences ev_arrived small_log = 2 /\
  Z.of_nat (occurrences ev_opened small_log) = 1%Z /\
  Z.of_nat (occurrences ev_stopped small_log) = 1%Z.
Proof.
  split; [exact hexec_small|]. split; [reflexivity|].
  split; [reflexivity|]. split; [reflexivity|].
  destruct (barrier_completeness small_config small_config_ok small_log
              small_end hexec_small)
    as (_ & _ & _ & _ & _ & _ & _ & _ & _ & Hexit & _).
  destruct (Hexit eq_refl) as (_ & _ & _ & Ho & Hs). split; [exact Ho|exact Hs].
Defined.

(** C9.  The destructor of [tg] runs after that of the latch.  In the
    configured scenario, with eight workers, [main] can stand in [join()] on
    the first thread, the latch [l] already destroyed and [stop_requested]
    still alive, while every worker is still inside [l.arrive_and_wait()];
    the next step of a worker is its return from the wait on the destroyed
    latch.  The workers outlive the latch of their round. *)
Theorem workers_outlive_latch :
  exists s,
    hreachable repro_config s /\
    mpc s = M_tg_dtor 0 /\ l_alive (mpc s) = false /\
    stop_alive (mpc s) = true /\
    length (members s) = 8 /\
    Forall (fun th => th = Running W_wait) (members s) /\
    exists s', hstep repro_config (Worker 0 false) s = Some s' /\
               members s' !! 0 = Some (Running W_loop).
Proof.
  exists (at_join 0 256).
  split.
  { eapply hreach_trans; [apply (round_begins 0 0 false); lia|].
    eapply hreach_trans; [apply (work_items_done 0 256 0 0); lia|].
    apply (hrun_reach _ to_join_schedule). reflexivity. }
  split; [reflexivity|]. split; [reflexivity|]. split; [reflexivity|].
  split; [reflexivity|]. split; [repeat constructor|].
  eexists. split; reflexivity.
Qed.
